(** * Runtime evaluation of SQLAlchemy expressions: [expression.py]

    A shallow embedding of [Expression] (serialization of an expression tree
    to reverse Polish notation and its stack evaluation), of [Symbol],
    [Stack] and of [rephrase_as_boolean], followed by the properties of the
    specification that concern them. *)

From Stdlib Require Import ZArith String List Bool Lia.
From Equations Require Import Equations.
From stdpp Require Import base option list gmap strings.
Import ListNotations.

Set Warnings "-register-all".
Local Open Scope string_scope.
Local Open Scope Z_scope.
Local Open Scope list_scope.

(** ** Python values *)

(** The values that substitute columns and that bound literals carry:
    [None], booleans, integers, strings and lists of values. *)
Inductive pyval : Type :=
| VNone
| VBool (b : bool)
| VInt (z : Z)
| VStr (s : string)
| VList (items : list pyval).

(** [bool] is a subclass of [int]: [True] counts as 1 and [False] as 0. *)
Definition as_number (v : pyval) : option Z :=
  match v with
  | VBool b => Some (Z.b2z b)
  | VInt z => Some z
  | _ => None
  end.

(** Python's [a == b]. *)
Fixpoint py_eq (a b : pyval) : bool :=
  match a, b with
  | VNone, VNone => true
  | VBool x, VBool y => Bool.eqb x y
  | VBool x, VInt y => Z.b2z x =? y
  | VInt x, VBool y => x =? Z.b2z y
  | VInt x, VInt y => x =? y
  | VStr x, VStr y => String.eqb x y
  | VList xs, VList ys =>
      (fix all2 (xs ys : list pyval) : bool :=
         match xs, ys with
         | [], [] => true
         | x :: xs', y :: ys' => py_eq x y && all2 xs' ys'
         | _, _ => false
         end) xs ys
  | _, _ => false
  end.

(** Python's ordering of two values; [None] when the comparison raises
    [TypeError].  Lists compare at their first unequal elements. *)
Fixpoint py_compare (a b : pyval) : option comparison :=
  match a, b with
  | VStr x, VStr y => Some (String.compare x y)
  | VList xs, VList ys =>
      (fix lex (xs ys : list pyval) : option comparison :=
         match xs, ys with
         | [], [] => Some Eq
         | [], _ :: _ => Some Lt
         | _ :: _, [] => Some Gt
         | x :: xs', y :: ys' => if py_eq x y then lex xs' ys' else py_compare x y
         end) xs ys
  | _, _ =>
      match as_number a, as_number b with
      | Some x, Some y => Some (x ?= y)
      | _, _ => None
      end
  end.

Fixpoint is_substring (p s : string) : bool :=
  String.prefix p s ||
  match s with
  | EmptyString => false
  | String _ s' => is_substring p s'
  end.

(** Python's [a in b]; [None] when it raises [TypeError]. *)
Definition py_contains (a b : pyval) : option bool :=
  match b with
  | VList items => Some (existsb (py_eq a) items)
  | VStr s => match a with VStr p => Some (is_substring p s) | _ => None end
  | _ => None
  end.

(** Python's truth value [bool(v)]. *)
Definition py_truth (v : pyval) : bool :=
  match v with
  | VNone => false
  | VBool b => b
  | VInt z => negb (z =? 0)
  | VStr s => negb (String.eqb s "")
  | VList items => match items with [] => false | _ :: _ => true end
  end.

Definition is_none (v : pyval) : bool :=
  match v with VNone => true | _ => false end.

(** ** Callables *)

(** The callables met as operators of expression nodes and as payloads of
    operator symbols: the functions of Python's [operator] module that
    SQLAlchemy uses as operators, the functions that [sqlalchemy.sql.operators]
    defines itself, the lambda of [OPERATOR_MAP], instances of
    [operators.custom_op], and any other callable, given by what it returns
    ([None] when it raises). *)
Inductive pyfunc : Type :=
| operator_eq
| operator_ne
| operator_lt
| operator_le
| operator_gt
| operator_ge
| operator_not_
| operator_inv
| operator_and_
| operator_or_
| operators_in_op
| operators_is_
| operators_isnot
| operators_istrue
| operators_isfalse
| lambda_left_in_right
| operators_custom_op (opstring : string)
| callable (behaviour : list pyval -> option pyval).

Definition compare_is (test : comparison -> bool) (a b : pyval) : option pyval :=
  c ← py_compare a b; Some (VBool (test c)).

(** Calling [f] on the unpacked arguments; [None] when the call raises.
    The functions of [sqlalchemy.sql.operators] delegate to a method of
    their first argument ([a.in_(b)], [a.is_(b)], ...) or raise
    [NotImplementedError], so on plain values they raise, as does every call
    with the wrong number of arguments. *)
Definition call (f : pyfunc) (args : list pyval) : option pyval :=
  match f, args with
  | operator_eq, [a; b] => Some (VBool (py_eq a b))
  | operator_ne, [a; b] => Some (VBool (negb (py_eq a b)))
  | operator_lt, [a; b] => compare_is (λ c, match c with Lt => true | _ => false end) a b
  | operator_le, [a; b] => compare_is (λ c, match c with Gt => false | _ => true end) a b
  | operator_gt, [a; b] => compare_is (λ c, match c with Gt => true | _ => false end) a b
  | operator_ge, [a; b] => compare_is (λ c, match c with Lt => false | _ => true end) a b
  | operator_not_, [a] => Some (VBool (negb (py_truth a)))
  | operator_inv, [a] => n ← as_number a; Some (VInt (- n - 1))
  | operator_and_, [a; b] =>
      match a, b with
      | VBool x, VBool y => Some (VBool (x && y))
      | _, _ => x ← as_number a; y ← as_number b; Some (VInt (Z.land x y))
      end
  | operator_or_, [a; b] =>
      match a, b with
      | VBool x, VBool y => Some (VBool (x || y))
      | _, _ => x ← as_number a; y ← as_number b; Some (VInt (Z.lor x y))
      end
  | lambda_left_in_right, [a; b] => VBool <$> py_contains a b
  | callable behaviour, _ => behaviour args
  | _, _ => None
  end.

(** ** Columns *)

Inductive sqltype : Type := Boolean | Integer | String_ | OtherType.

(** [isinstance(t, Boolean)] *)
Definition isinstance_Boolean (t : sqltype) : bool :=
  match t with Boolean => true | _ => false end.

(** A [Column]: what identifies it, and its declared type. *)
Record Column : Type := mkColumn { name : string; type_ : sqltype }.

Global Instance sqltype_eq_dec : EqDecision sqltype.
Proof. solve_decision. Defined.

Global Instance sqltype_countable : Countable sqltype.
Proof.
  refine (inj_countable'
    (λ t, match t with Boolean => 0%nat | Integer => 1%nat | String_ => 2%nat | OtherType => 3%nat end)
    (λ n, match n with 0%nat => Boolean | 1%nat => Integer | 2%nat => String_ | _ => OtherType end) _).
  by intros [].
Defined.

Global Instance Column_eq_dec : EqDecision Column.
Proof. solve_decision. Defined.

Global Instance Column_countable : Countable Column.
Proof.
  refine (inj_countable' (λ c, (name c, type_ c)) (λ p, mkColumn p.1 p.2) _).
  by intros [].
Defined.

(** ** Exceptions *)

Inductive exn : Type :=
| UnsupportedOperator (op : pyfunc)            (* TypeError("Unsupported operator ...") *)
| UnsupportedExpression (type_name : string)   (* TypeError("Unsupported expression ...") *)
| OperatorMapKeyError (op : pyfunc)            (* KeyError of OPERATOR_MAP[expr.operator] *)
| ValueAttributeError                          (* AttributeError of element.value *)
| MissingColumnValue (c : Column)              (* KeyError of column_values[value] *)
| PopFromEmpty                                 (* IndexError: pop from an empty deque *)
| RangeTypeError                               (* TypeError of range(None) *)
| OperatorRaised (f : pyfunc) (args : list pyval). (* raised inside value(...) *)

Inductive result (A : Type) : Type :=
| Ok (a : A)
| Raise (e : exn).
Arguments Ok {A} a.
Arguments Raise {A} e.

Global Instance result_ret : MRet result := λ A a, Ok a.
Global Instance result_bind : MBind result := λ A B k m,
  match m with
  | Ok a => k a
  | Raise e => Raise e
  end.

(** ** Symbols *)

Module SymbolType.
Inductive t : Type := column | literal | operator.
End SymbolType.

(** What [Symbol.value] holds: a plain value, a [Column] or a callable. *)
Inductive pyobj : Type :=
| PyValue (v : pyval)
| PyColumn (c : Column)
| PyCallable (f : pyfunc).

(** [Symbol._determine_type] *)
Definition _determine_type (value : pyobj) : SymbolType.t :=
  match value with
  | PyColumn _ => SymbolType.column
  | PyCallable _ => SymbolType.operator
  | PyValue _ => SymbolType.literal
  end.

(** A [Symbol].  Its [type] slot is set once, by [__init__], to
    [_determine_type(value)]; it is kept here as the function [type]. *)
Record Symbol : Type := mkSymbol { value : pyobj; arity : option nat }.

Definition type (s : Symbol) : SymbolType.t := _determine_type (value s).

(** ** The stack *)

(** The deque of [Stack], its right end first. *)
Definition Stack : Type := list pyval.

Definition push (frame : pyval) (stack : Stack) : Stack := frame :: stack.

Definition pop (stack : Stack) : result (pyval * Stack) :=
  match stack with
  | frame :: rest => Ok (frame, rest)
  | [] => Raise PopFromEmpty
  end.

(** [popn]: the generator is consumed in full when its items are unpacked
    as the arguments of the operator. *)
Fixpoint popn (size : nat) (stack : Stack) : result (list pyval * Stack) :=
  match size with
  | O => Ok ([], stack)
  | S n =>
      '(frame, rest) ← pop stack;
      '(frames, rest') ← popn n rest;
      Ok (frame :: frames, rest')
  end.

(** ** Evaluation *)

(** One turn of the loop of [Expression.evaluate]. *)
Definition evaluate_symbol (column_values : gmap Column pyval)
    (stack : Stack) (s : Symbol) : result Stack :=
  match value s with
  | PyValue v =>                                (* itype is SymbolType.literal *)
      Ok (push v stack)
  | PyColumn c =>                               (* itype is SymbolType.column *)
      match column_values !! c with
      | Some v => Ok (push v stack)
      | None => Raise (MissingColumnValue c)
      end
  | PyCallable f =>
      match arity s with
      | None => Raise RangeTypeError
      | Some n =>
          '(args, rest) ← popn n stack;
          match call f args with
          | Some v => Ok (push v rest)
          | None => Raise (OperatorRaised f args)
          end
      end
  end.

(** The test of [itype] in the loop is a test of the value. *)
Lemma type_value (s : Symbol) :
  match type s with
  | SymbolType.literal => ∃ v, value s = PyValue v
  | SymbolType.column => ∃ c, value s = PyColumn c
  | SymbolType.operator => ∃ f, value s = PyCallable f
  end.
Proof. unfold type. destruct (value s); simpl; eauto. Qed.

(** The loop of [Expression.evaluate], from a given stack. *)
Fixpoint evaluate_loop (column_values : gmap Column pyval)
    (serialized : list Symbol) (stack : Stack) : result Stack :=
  match serialized with
  | [] => Ok stack
  | s :: rest =>
      stack' ← evaluate_symbol column_values stack s;
      evaluate_loop column_values rest stack'
  end.

Definition evaluate (serialized : list Symbol) (column_values : gmap Column pyval)
    : result pyval :=
  stack ← evaluate_loop column_values serialized [];
  '(v, _) ← pop stack;
  Ok v.

(** [Expression.columns] *)
Definition columns (serialized : list Symbol) : gset Column :=
  list_to_set
    (omap (λ symbol, match value symbol with PyColumn c => Some c | _ => None end)
          serialized).

(** ** Expression trees *)

(** The node classes of [sqlalchemy.sql.elements] that [_serialize] tells
    apart, with the attributes it reads.  An [AsBoolean] wraps a column;
    the [operator] of a [UnaryExpression] is [None] when the expression has
    a modifier only, as [column.desc()] and [column.asc()] have;
    [OtherElement] stands for an instance of any other class. *)
Inductive ClauseElement : Type :=
| BindParameter (value : pyval)
| Grouping (element : list ClauseElement)
| Null
| Column_ (c : Column)
| AsBoolean (element : Column) (operator : pyfunc)
| UnaryExpression (element : ClauseElement) (operator : option pyfunc)
| BooleanClauseList (operator : pyfunc) (clauses : list ClauseElement)
| BinaryExpression (left right : ClauseElement) (operator : pyfunc)
| OtherElement (type_name : string).

(** [column.isnot(None)] and [column.is_(None)]: SQLAlchemy builds the binary
    expressions [column IS NOT NULL] and [column IS NULL], whose right operand
    is the [Null] constant. *)
Definition isnot_None (c : Column) : ClauseElement :=
  BinaryExpression (Column_ c) Null operators_isnot.

Definition is_None (c : Column) : ClauseElement :=
  BinaryExpression (Column_ c) Null operators_is_.

(** [OPERATOR_MAP]: the outer [None] is a missing key, the inner one the
    value [None] stored for [operators.istrue]. *)
Definition OPERATOR_MAP (op : pyfunc) : option (option pyfunc) :=
  match op with
  | operators_in_op => Some (Some lambda_left_in_right)
  | operators_is_ => Some (Some operator_eq)
  | operators_isnot => Some (Some operator_ne)
  | operators_istrue => Some None
  | operators_isfalse => Some (Some operator_not_)
  | _ => None
  end.

(** [OPERATOR_MAP.get(op, op)] *)
Definition OPERATOR_MAP_get (op : pyfunc) : option pyfunc :=
  match OPERATOR_MAP op with
  | Some found => found
  | None => Some op
  end.

(** A callable or [None], as the value of a symbol. *)
Definition optional_callable (f : option pyfunc) : pyobj :=
  match f with
  | Some g => PyCallable g
  | None => PyValue VNone
  end.

(** [operator == operator.inv], for an operator that is a callable or
    [None]. *)
Definition is_operator_inv (op : option pyfunc) : bool :=
  match op with Some operator_inv => true | _ => false end.

(** [isinstance(operator, operators.custom_op)] *)
Definition is_custom_op (op : pyfunc) : bool :=
  match op with operators_custom_op _ => true | _ => false end.

(** [isinstance(expr, Column)] *)
Definition is_Column (expr : ClauseElement) : bool :=
  match expr with Column_ _ => true | _ => false end.

(** [target.is_(None)], for a [target] that is a column. *)
Definition is_None_of (target : ClauseElement) : ClauseElement :=
  match target with
  | Column_ c => is_None c
  | _ => target
  end.

(** [[element.value for element in elements]]: only a [BindParameter] has
    a [value]. *)
Fixpoint element_values (elements : list ClauseElement) : result (list pyval) :=
  match elements with
  | [] => Ok []
  | BindParameter v :: rest => vs ← element_values rest; Ok (v :: vs)
  | _ :: _ => Raise ValueAttributeError
  end.

Fixpoint size (expr : ClauseElement) : nat :=
  match expr with
  | UnaryExpression element _ => S (size element)
  | BooleanClauseList _ clauses => S (list_sum (map size clauses))
  | BinaryExpression l r _ => S (size l + size r)
  | _ => 1
  end.

(** The measure that decreases along the calls of [_serialize]: a call on a
    freshly built [IS NULL] node drops [force_bool]. *)
Definition weight (expr : ClauseElement) (force_bool : bool) : nat :=
  (size expr + if force_bool then 3 else 0)%nat.

Lemma size_clause clause clauses :
  In clause clauses → (size clause ≤ list_sum (map size clauses))%nat.
Proof.
  induction clauses as [|x xs IH]; simpl; [tauto|].
  intros [->|H]; [lia|]. specialize (IH H). lia.
Qed.

(** [for clause in clauses: yield from f(clause)] *)
Fixpoint yield_from_each (clauses : list ClauseElement)
    : (∀ clause, In clause clauses → result (list Symbol)) → result (list Symbol) :=
  match clauses with
  | [] => λ _, Ok []
  | clause :: rest => λ f,
      symbols ← f clause (or_introl eq_refl);
      more ← yield_from_each rest (λ c H, f c (or_intror H));
      Ok (symbols ++ more)
  end.

(** [Expression._serialize], as the list of the symbols it yields or the
    exception it raises.  The clauses follow the [isinstance] tests of the
    source in their order; the tests on [force_bool] of the [Column] and
    [UnaryExpression] branches are read off the patterns, and the lemmas
    [serialize_Column] to [serialize_BinaryExpression] below state each
    branch with the conditions of the source. *)
Equations? _serialize (expr : ClauseElement) (force_bool : bool)
    : result (list Symbol) by wf (weight expr force_bool) lt :=
  _serialize (BindParameter value) _ :=
    Ok [mkSymbol (PyValue value) None];
  _serialize (Grouping element) _ :=
    value ← element_values element;
    Ok [mkSymbol (PyValue (VList value)) None];
  _serialize Null _ :=
    Ok [mkSymbol (PyValue VNone) None];
  _serialize (Column_ c) true with isinstance_Boolean (type_ c) := {
    | false := _serialize (isnot_None c) false;
    | true := Ok [mkSymbol (PyColumn c) None] };
  _serialize (Column_ c) false :=
    Ok [mkSymbol (PyColumn c) None];
  _serialize (AsBoolean element op) _ with OPERATOR_MAP op := {
    | None := Raise (OperatorMapKeyError op);
    | Some None := Ok [mkSymbol (PyColumn element) None];
    | Some (Some func) :=
        Ok [mkSymbol (PyColumn element) None; mkSymbol (PyCallable func) (Some 1%nat)] };
  _serialize (UnaryExpression (Column_ c) op) true with is_operator_inv op := {
    | true := _serialize (is_None c) false;
    | false :=
        symbols ← _serialize (Column_ c) true;
        Ok (symbols ++ [mkSymbol (optional_callable op) (Some 1%nat)]) };
  _serialize (UnaryExpression target op) force_bool :=
    symbols ← _serialize target force_bool;
    Ok (symbols ++ [mkSymbol (optional_callable op) (Some 1%nat)]);
  _serialize (BooleanClauseList op clauses) force_bool :=
    symbols ← yield_from_each clauses (λ clause _, _serialize clause force_bool);
    Ok (symbols ++ [mkSymbol (PyCallable op) (Some (length clauses))]);
  _serialize (BinaryExpression l r op) _ with is_custom_op op := {
    | true := Raise (UnsupportedOperator op);
    | false :=
        right_symbols ← _serialize r false;
        left_symbols ← _serialize l false;
        Ok (right_symbols ++ left_symbols
              ++ [mkSymbol (optional_callable (OPERATOR_MAP_get op)) (Some 2%nat)]) };
  _serialize (OtherElement type_name) _ :=
    Raise (UnsupportedExpression type_name).
Proof.
  all: unfold weight; simpl; try lia.
  all: try (destruct force_bool; lia).
  match goal with H : In _ _ |- _ => pose proof (size_clause _ _ H) end. lia.
Qed.

(** ** Expression objects and [rephrase_as_boolean] *)

(** [rephrase_as_boolean] assigns to the [clauses] attribute of the object it
    is given, so the expressions it works on are objects of a store, which
    refer to their parts by address. *)
Definition address : Type := positive.

Inductive object : Type :=
| ObjBindParameter (value : pyval)
| ObjGrouping (element : list address)
| ObjNull
| ObjColumn (c : Column)
| ObjAsBoolean (element : address) (operator : pyfunc)
| ObjUnaryExpression (element : address) (operator : option pyfunc)
| ObjBooleanClauseList (operator : pyfunc) (clauses : list address)
| ObjBinaryExpression (left right : address) (operator : pyfunc)
| ObjOther (type_name : string).

Abbreviation store := (gmap address object).

(** A new object, at an address not in use. *)
Definition new (h : store) (o : object) : address * store :=
  let a := fresh (dom h) in (a, <[a := o]> h).

(** [column.isnot(None)] and [column.is_(None)] on the store: a new [Null]
    and a new binary expression over the column and it. *)
Definition new_null_test (h : store) (column : address) (op : pyfunc)
    : address * store :=
  let '(null, h1) := new h ObjNull in
  new h1 (ObjBinaryExpression column null op).

(** [isinstance(h[a], Column)] *)
Definition isinstance_Column (h : store) (a : address) : bool :=
  match h !! a with
  | Some (ObjColumn _) => true
  | _ => false
  end.

(** [expr.clauses = clauses] *)
Definition set_clauses (clauses : list address) (o : object) : object :=
  match o with
  | ObjBooleanClauseList op _ => ObjBooleanClauseList op clauses
  | _ => o
  end.

(** [list(map(f, addresses))] for an [f] that works on the store. *)
Fixpoint map_in_store (f : store → address → option (address * store))
    (h : store) (addresses : list address) : option (list address * store) :=
  match addresses with
  | [] => Some ([], h)
  | a :: rest =>
      '(a', h1) ← f h a;
      '(rest', h2) ← map_in_store f h1 rest;
      Some (a' :: rest', h2)
  end.

(** [rephrase_as_boolean], with a bound on the depth of its recursion
    ([None] when the bound is reached, or when [expr] is no object of the
    store).  It returns the address of its result and the store it leaves.
    [AsBoolean] is a subclass of [UnaryExpression], whose [operator] is
    always a callable. *)
Fixpoint rephrase_as_boolean (depth : nat) (h : store) (expr : address)
    : option (address * store) :=
  match depth with
  | O => None
  | S depth' =>
      o ← h !! expr;
      match o with
      | ObjColumn c =>
          if negb (isinstance_Boolean (type_ c))
          then Some (new_null_test h expr operators_isnot)
          else Some (expr, h)
      | ObjUnaryExpression element op =>
          if is_operator_inv op && isinstance_Column h element
          then Some (new_null_test h element operators_is_)
          else Some (expr, h)
      | ObjAsBoolean element op =>
          if is_operator_inv (Some op) && isinstance_Column h element
          then Some (new_null_test h element operators_is_)
          else Some (expr, h)
      | ObjBooleanClauseList _ clauses =>
          '(clauses', h') ← map_in_store (rephrase_as_boolean depth') h clauses;
          Some (expr, alter (set_clauses clauses') expr h')
      | _ => Some (expr, h)
      end
  end.

(** The tree that [_serialize] walks from the object at [a]. *)
Fixpoint tree_at (depth : nat) (h : store) (a : address) : option ClauseElement :=
  match depth with
  | O => None
  | S depth' =>
      o ← h !! a;
      match o with
      | ObjBindParameter value => Some (BindParameter value)
      | ObjGrouping element => Grouping <$> mapM (tree_at depth' h) element
      | ObjNull => Some Null
      | ObjColumn c => Some (Column_ c)
      | ObjAsBoolean element op =>
          match h !! element with
          | Some (ObjColumn c) => Some (AsBoolean c op)
          | _ => None
          end
      | ObjUnaryExpression element op =>
          target ← tree_at depth' h element; Some (UnaryExpression target op)
      | ObjBooleanClauseList op clauses =>
          BooleanClauseList op <$> mapM (tree_at depth' h) clauses
      | ObjBinaryExpression l r op =>
          left_tree ← tree_at depth' h l;
          right_tree ← tree_at depth' h r;
          Some (BinaryExpression left_tree right_tree op)
      | ObjOther type_name => Some (OtherElement type_name)
      end
  end.

(** An [Expression]: its [sql] attribute (an address) and its [serialized]
    tuple. *)
Record Expression : Type := mkExpression { sql : address; serialized : list Symbol }.

(** [Expression.__init__]: the store it leaves, and the expression or the
    exception raised by [_serialize]. *)
Definition Expression__init__ (depth : nat) (h : store) (expression : address)
    (force_bool : bool) : option (store * result Expression) :=
  '(sql, h') ← (if force_bool then rephrase_as_boolean depth h expression
                else Some (expression, h));
  tree ← tree_at depth h' expression;
  Some (h', symbols ← _serialize tree force_bool;
            Ok (mkExpression sql symbols)).

(** ** Notions used to state the properties *)

(** The exceptions that depend on the values given to [evaluate]: a column
    without a value, and an operator that raises on its arguments. *)
Definition raised_by_values (e : exn) : Prop :=
  match e with
  | MissingColumnValue _ | OperatorRaised _ _ => True
  | _ => False
  end.

(** Every operator that [_serialize] makes a symbol of is a callable: no
    unary expression that it walks has [None] for operator, and no binary
    expression an operator that [OPERATOR_MAP] maps to [None]. *)
Fixpoint operators_callable (expr : ClauseElement) : bool :=
  match expr with
  | UnaryExpression element op =>
      bool_decide (is_Some op) && operators_callable element
  | BooleanClauseList _ clauses => forallb operators_callable clauses
  | BinaryExpression l r op =>
      bool_decide (is_Some (OPERATOR_MAP_get op))
      && operators_callable l && operators_callable r
  | _ => true
  end.

(** Evaluating [symbols] on [stack] under the frames [start] either raises
    an exception that depends on the values, or leaves [stack] untouched
    under frames that satisfy [P]. *)
Definition stack_effect (column_values : gmap Column pyval) (symbols : list Symbol)
    (start : list pyval) (stack : Stack) (P : list pyval → Prop) : Prop :=
  match evaluate_loop column_values symbols (start ++ stack) with
  | Ok stack' => ∃ frames, stack' = frames ++ stack ∧ P frames
  | Raise e => raised_by_values e
  end.

(** At least [n] frames, and exactly [n] when [exact] holds. *)
Definition frames_count (n : nat) (exact : bool) (frames : list pyval) : Prop :=
  (n ≤ length frames)%nat ∧ (exact = true → length frames = n).

(** ** Examples *)

Definition column_a : Column := mkColumn "a" Integer.
Definition column_b : Column := mkColumn "b" Integer.

Definition a_lt_b_left : ClauseElement := Column_ column_a.
Definition a_lt_b_right : ClauseElement := Column_ column_b.

(** [a < b] *)
Definition a_lt_b : ClauseElement :=
  BinaryExpression a_lt_b_left a_lt_b_right operator_lt.

Definition a_lt_b_symbols : list Symbol :=
  [mkSymbol (PyColumn column_b) None; mkSymbol (PyColumn column_a) None;
   mkSymbol (PyCallable operator_lt) (Some 2%nat)].

(** [BinaryExpression(a, b, operators.istrue)] *)
Definition a_istrue_b : ClauseElement :=
  BinaryExpression (Column_ column_a) (Column_ column_b) operators_istrue.

(** [and_(a < 5, b)] *)
Definition a_lt_5_and_b : ClauseElement :=
  BooleanClauseList operator_and_
    [BinaryExpression (Column_ column_a) (BindParameter (VInt 5)) operator_lt;
     Column_ column_b].

(** [o'] is [o], but for the clauses of a clause list, of which there are as
    many. *)
Definition same_but_clauses (o o' : object) : Prop :=
  match o with
  | ObjBooleanClauseList op clauses =>
      ∃ clauses', o' = ObjBooleanClauseList op clauses' ∧ length clauses' = length clauses
  | _ => o' = o
  end.

(** Every object of [h] is in [h'], the same but for the clauses of clause
    lists. *)
Definition rewritten_in_place (h h' : store) : Prop :=
  ∀ a o, h !! a = Some o → ∃ o', h' !! a = Some o' ∧ same_but_clauses o o'.

(** [isinstance(o, BooleanClauseList)] *)
Definition is_clause_list (o : object) : bool :=
  match o with ObjBooleanClauseList _ _ => true | _ => false end.

(** [~column]: SQLAlchemy negates a column of Boolean type by wrapping it in
    an [AsBoolean] under [operators.isfalse], and a column of any other type
    in a [UnaryExpression] under [operator.inv]. *)
Definition Column__invert__ (c : Column) : ClauseElement :=
  if isinstance_Boolean (type_ c)
  then AsBoolean c operators_isfalse
  else UnaryExpression (Column_ c) (Some operator_inv).

Definition column_flag : Column := mkColumn "flag" Boolean.

(** A store with the column [a] at 1 and [~a] at 2, the Boolean column
    [flag] at 3 and [~flag] at 4. *)
Definition store_inverted_columns : store :=
  {[ 1%positive := ObjColumn column_a;
     2%positive := ObjUnaryExpression 1%positive (Some operator_inv);
     3%positive := ObjColumn column_flag;
     4%positive := ObjAsBoolean 3%positive operators_isfalse ]}.

(** A store with the Boolean column [flag] at 1 and, at 2, a unary
    expression under [operator.inv] built over it directly, which is not
    what [~flag] builds. *)
Definition store_inverted_flag : store :=
  {[ 1%positive := ObjColumn column_flag;
     2%positive := ObjUnaryExpression 1%positive (Some operator_inv) ]}.

(** A store with the columns [a] at 1 and [b] at 2, and [a.op("@@")(b)] at 3. *)
Definition store_a_custom_b : store :=
  {[ 1%positive := ObjColumn column_a;
     2%positive := ObjColumn column_b;
     3%positive := ObjBinaryExpression 1%positive 2%positive (operators_custom_op "@@") ]}.

(** A store with the columns [a] at 1 and [b] at 2, and [a < b] at 3. *)
Definition store_a_lt_b : store :=
  {[ 1%positive := ObjColumn column_a;
     2%positive := ObjColumn column_b;
     3%positive := ObjBinaryExpression 1%positive 2%positive operator_lt ]}.

(** A store with the column [a] at 1 and, at 2, a conjunction built
    directly over the one clause [a]. *)
Definition store_and_a : store :=
  {[ 1%positive := ObjColumn column_a;
     2%positive := ObjBooleanClauseList operator_and_ [1%positive] ]}.

(** [store_and_a] after [Expression(..., force_bool=True)] on the
    conjunction at 2. *)
Definition store_and_a_rephrased : store :=
  <[ 2%positive := ObjBooleanClauseList operator_and_ [4%positive] ]>
    (<[ 4%positive := ObjBinaryExpression 1%positive 3%positive operators_isnot ]>
       (<[ 3%positive := ObjNull ]> store_and_a)).

(** A store with the columns [a] at 1 and [b] at 2, and [and_(a, b)] at 3. *)
Definition store_and_a_b : store :=
  {[ 1%positive := ObjColumn column_a;
     2%positive := ObjColumn column_b;
     3%positive := ObjBooleanClauseList operator_and_ [1%positive; 2%positive] ]}.

(** [store_and_a_b] after [Expression(and_(a, b), force_bool=True)]. *)
Definition store_and_a_b_rephrased : store :=
  <[ 3%positive := ObjBooleanClauseList operator_and_ [5%positive; 7%positive] ]>
    (<[ 7%positive := ObjBinaryExpression 2%positive 6%positive operators_isnot ]>
       (<[ 6%positive := ObjNull ]>
          (<[ 5%positive := ObjBinaryExpression 1%positive 4%positive operators_isnot ]>
             (<[ 4%positive := ObjNull ]> store_and_a_b)))).

(** [rephrase_as_boolean] read on trees, without the objects: the branches
    of the source in their order, [list(map(rephrase_as_boolean, clauses))]
    as [map]. *)
Fixpoint rephrased_tree (expr : ClauseElement) : ClauseElement :=
  match expr with
  | Column_ c =>
      if negb (isinstance_Boolean (type_ c)) then isnot_None c else expr
  | AsBoolean element op =>
      if is_operator_inv (Some op) then is_None element else expr
  | UnaryExpression target op =>
      if is_operator_inv op && is_Column target then is_None_of target else expr
  | BooleanClauseList op clauses => BooleanClauseList op (map rephrased_tree clauses)
  | _ => expr
  end.

(** The addresses of the clause lists that [_serialize] walks from the
    object at [a], once for each walk through them: the objects whose
    [clauses] [rephrase_as_boolean] may assign to. *)
Fixpoint clause_lists_at (depth : nat) (h : store) (a : address) : option (list address) :=
  match depth with
  | O => None
  | S depth' =>
      o ← h !! a;
      match o with
      | ObjGrouping element =>
          inner ← mapM (clause_lists_at depth' h) element; Some (concat inner)
      | ObjUnaryExpression element _ => clause_lists_at depth' h element
      | ObjBooleanClauseList _ clauses =>
          inner ← mapM (clause_lists_at depth' h) clauses; Some (a :: concat inner)
      | ObjBinaryExpression l r _ =>
          left_lists ← clause_lists_at depth' h l;
          right_lists ← clause_lists_at depth' h r;
          Some (left_lists ++ right_lists)
      | _ => Some []
      end
  end.

(** The expressions that [rephrase_as_boolean] returns as they are, in a
    store it leaves as it is: no column of a type other than Boolean, no
    inversion of a column, and clause lists of such clauses only. *)
Fixpoint settled (depth : nat) (h : store) (a : address) : Prop :=
  match depth with
  | O => False
  | S depth' =>
      match h !! a with
      | Some (ObjColumn c) => isinstance_Boolean (type_ c) = true
      | Some (ObjUnaryExpression element op) =>
          is_operator_inv op && isinstance_Column h element = false
      | Some (ObjAsBoolean element op) =>
          is_operator_inv (Some op) && isinstance_Column h element = false
      | Some (ObjBooleanClauseList _ clauses) => Forall (settled depth' h) clauses
      | Some _ => True
      | None => False
      end
  end.

(** A store in which the conjunction over the one clause [a], at 2, is
    both a clause of the conjunction at 5 and the left operand of its other
    clause, a comparison with 1. *)
Definition store_shared_clause_list : store :=
  {[ 1%positive := ObjColumn column_a;
     2%positive := ObjBooleanClauseList operator_and_ [1%positive];
     3%positive := ObjBindParameter (VInt 1);
     4%positive := ObjBinaryExpression 2%positive 3%positive operator_eq;
     5%positive := ObjBooleanClauseList operator_and_ [2%positive; 4%positive] ]}.

(** ** Reading [_serialize] branch by branch *)

(** [for clause in clauses: yield from f(clause)], without the membership
    proofs that the recursion of [_serialize] carries. *)
Fixpoint serialize_each (f : ClauseElement → result (list Symbol))
    (clauses : list ClauseElement) : result (list Symbol) :=
  match clauses with
  | [] => Ok []
  | clause :: rest =>
      symbols ← f clause;
      more ← serialize_each f rest;
      Ok (symbols ++ more)
  end.

Lemma yield_from_each_plain f clauses :
  yield_from_each clauses (λ clause _, f clause) = serialize_each f clauses.
Proof.
  induction clauses as [|clause rest IH]; simpl; [done|].
  destruct (f clause); simpl; [|done]. by rewrite IH.
Qed.

Lemma serialize_Column c force_bool :
  _serialize (Column_ c) force_bool =
  if force_bool && negb (isinstance_Boolean (type_ c))
  then _serialize (isnot_None c) false
  else Ok [mkSymbol (PyColumn c) None].
Proof.
  destruct force_bool; simp _serialize; [|done].
  by destruct (isinstance_Boolean (type_ c)).
Qed.

Lemma serialize_AsBoolean element op force_bool :
  _serialize (AsBoolean element op) force_bool =
  match OPERATOR_MAP op with
  | None => Raise (OperatorMapKeyError op)
  | Some func =>
      Ok (mkSymbol (PyColumn element) None ::
          match func with
          | Some f => [mkSymbol (PyCallable f) (Some 1%nat)]
          | None => []
          end)
  end.
Proof. simp _serialize. by destruct (OPERATOR_MAP op) as [[f|]|]. Qed.

Lemma serialize_UnaryExpression target op force_bool :
  _serialize (UnaryExpression target op) force_bool =
  if force_bool && is_operator_inv op && is_Column target
  then _serialize (is_None_of target) false
  else symbols ← _serialize target force_bool;
       Ok (symbols ++ [mkSymbol (optional_callable op) (Some 1%nat)]).
Proof.
  destruct target, force_bool; simp _serialize; try done;
    rewrite ?andb_false_r; try done.
  destruct (is_operator_inv op); simp _serialize; done.
Qed.

Lemma serialize_BooleanClauseList op clauses force_bool :
  _serialize (BooleanClauseList op clauses) force_bool =
  symbols ← serialize_each (λ clause, _serialize clause force_bool) clauses;
  Ok (symbols ++ [mkSymbol (PyCallable op) (Some (length clauses))]).
Proof. simp _serialize. by rewrite yield_from_each_plain. Qed.

Lemma serialize_BinaryExpression l r op force_bool :
  _serialize (BinaryExpression l r op) force_bool =
  if is_custom_op op then Raise (UnsupportedOperator op)
  else right_symbols ← _serialize r false;
       left_symbols ← _serialize l false;
       Ok (right_symbols ++ left_symbols
             ++ [mkSymbol (optional_callable (OPERATOR_MAP_get op)) (Some 2%nat)]).
Proof. simp _serialize. by destruct (is_custom_op op). Qed.

Lemma serialize_isnot_None c :
  _serialize (isnot_None c) false =
  Ok [mkSymbol (PyValue VNone) None; mkSymbol (PyColumn c) None;
      mkSymbol (PyCallable operator_ne) (Some 2%nat)].
Proof. unfold isnot_None. rewrite serialize_BinaryExpression. by simp _serialize. Qed.

Lemma serialize_is_None c :
  _serialize (is_None c) false =
  Ok [mkSymbol (PyValue VNone) None; mkSymbol (PyColumn c) None;
      mkSymbol (PyCallable operator_eq) (Some 2%nat)].
Proof. unfold is_None. rewrite serialize_BinaryExpression. by simp _serialize. Qed.

(** Induction over expression trees, through the lists of a [Grouping] and
    of a [BooleanClauseList]. *)
Lemma ClauseElement_tree_ind (P : ClauseElement → Prop) :
  (∀ value, P (BindParameter value)) →
  (∀ element, Forall P element → P (Grouping element)) →
  P Null →
  (∀ c, P (Column_ c)) →
  (∀ element op, P (AsBoolean element op)) →
  (∀ element op, P element → P (UnaryExpression element op)) →
  (∀ op clauses, Forall P clauses → P (BooleanClauseList op clauses)) →
  (∀ l r op, P l → P r → P (BinaryExpression l r op)) →
  (∀ type_name, P (OtherElement type_name)) →
  ∀ expr, P expr.
Proof.
  intros HB HG HN HC HA HU HL HBin HO.
  fix IH 1. intros [v|element| |c|element op|element op|op clauses|l r op|t].
  - apply HB.
  - apply HG. induction element as [|x xs IHxs]; constructor; [apply IH|apply IHxs].
  - apply HN.
  - apply HC.
  - apply HA.
  - apply HU, IH.
  - apply HL. induction clauses as [|x xs IHxs]; constructor; [apply IH|apply IHxs].
  - apply HBin; apply IH.
  - apply HO.
Qed.

(** ** The evaluation loop *)

Lemma evaluate_loop_app column_values symbols1 symbols2 stack :
  evaluate_loop column_values (symbols1 ++ symbols2) stack =
  stack' ← evaluate_loop column_values symbols1 stack;
  evaluate_loop column_values symbols2 stack'.
Proof.
  revert stack. induction symbols1 as [|s rest IH]; intros stack; simpl; [done|].
  destruct (evaluate_symbol column_values stack s); simpl; [apply IH|done].
Qed.

Lemma py_eq_None v : py_eq v VNone = is_none v.
Proof. by destruct v. Qed.

(** What the symbols of [column IS NULL] and [column IS NOT NULL] evaluate
    to: the operator is applied to the value of the column, then [None]. *)
Lemma evaluate_null_test (column_values : gmap Column pyval) c f :
  evaluate [mkSymbol (PyValue VNone) None; mkSymbol (PyColumn c) None;
            mkSymbol (PyCallable f) (Some 2%nat)] column_values =
  match column_values !! c with
  | Some v =>
      match call f [v; VNone] with
      | Some b => Ok b
      | None => Raise (OperatorRaised f [v; VNone])
      end
  | None => Raise (MissingColumnValue c)
  end.
Proof.
  unfold evaluate, evaluate_loop, evaluate_symbol. simpl.
  destruct (column_values !! c) as [v|]; simpl; [|done].
  by destruct (call f [v; VNone]).
Qed.

(** ** The stack discipline of serialized expressions *)

Lemma popn_app n (frames stack : list pyval) :
  (n ≤ length frames)%nat →
  popn n (frames ++ stack) = Ok (take n frames, drop n frames ++ stack).
Proof.
  revert frames. induction n as [|n IH]; intros frames Hn; simpl; [done|].
  destruct frames as [|frame frames]; simpl in *; [lia|].
  rewrite IH by lia. done.
Qed.

Lemma stack_effect_literal cv v stack :
  stack_effect cv [mkSymbol (PyValue v) None] [] stack (frames_count 1 true).
Proof. unfold stack_effect. simpl. exists [v]. by repeat split. Qed.

Lemma stack_effect_column cv c stack :
  stack_effect cv [mkSymbol (PyColumn c) None] [] stack (frames_count 1 true).
Proof.
  unfold stack_effect, evaluate_loop, evaluate_symbol. simpl.
  destruct (cv !! c) as [v|]; simpl; [|done]. exists [v]. by repeat split.
Qed.

Lemma stack_effect_app cv symbols1 symbols2 start stack (P1 P : list pyval → Prop) :
  stack_effect cv symbols1 start stack P1 →
  (∀ frames1, P1 frames1 → stack_effect cv symbols2 frames1 stack P) →
  stack_effect cv (symbols1 ++ symbols2) start stack P.
Proof.
  unfold stack_effect. rewrite evaluate_loop_app.
  destruct (evaluate_loop cv symbols1 (start ++ stack)) as [stack1|e]; simpl; [|done].
  intros (frames1 & -> & H1) H2. by apply H2.
Qed.

(** What holds on an empty start holds under any frames, which stay. *)
Lemma stack_effect_frame cv symbols start stack (P : list pyval → Prop) :
  stack_effect cv symbols [] (start ++ stack) P →
  stack_effect cv symbols start stack (λ frames, ∃ new, frames = new ++ start ∧ P new).
Proof.
  unfold stack_effect. simpl.
  destruct (evaluate_loop cv symbols (start ++ stack)) as [stack1|e]; [|done].
  intros (new & -> & HP). exists (new ++ start). rewrite app_assoc. eauto.
Qed.

Lemma stack_effect_weaken cv symbols start stack (P Q : list pyval → Prop) :
  stack_effect cv symbols start stack P →
  (∀ frames, P frames → Q frames) →
  stack_effect cv symbols start stack Q.
Proof.
  unfold stack_effect.
  destruct (evaluate_loop cv symbols (start ++ stack)) as [stack1|e]; [|done].
  intros (frames & -> & HP) HPQ. eauto.
Qed.

(** An operator of arity [n] on at least [n] frames replaces the [n] last
    pushed by one. *)
Lemma stack_effect_operator cv f n start stack :
  (n ≤ length start)%nat →
  stack_effect cv [mkSymbol (PyCallable f) (Some n)] start stack
    (λ frames, ∃ v, frames = v :: drop n start).
Proof.
  intros Hn. unfold stack_effect, evaluate_loop, evaluate_symbol. simpl.
  rewrite popn_app by done. simpl.
  destruct (call f (take n start)) as [v|]; simpl; [|done].
  exists (v :: drop n start). eauto.
Qed.

(** The symbols of [column IS NULL] and [column IS NOT NULL]. *)
Lemma stack_effect_null_test cv c f stack :
  stack_effect cv
    [mkSymbol (PyValue VNone) None; mkSymbol (PyColumn c) None;
     mkSymbol (PyCallable f) (Some 2%nat)] [] stack (frames_count 1 true).
Proof.
  change (stack_effect cv
    ([mkSymbol (PyValue VNone) None] ++ [mkSymbol (PyColumn c) None]
       ++ [mkSymbol (PyCallable f) (Some 2%nat)]) [] stack (frames_count 1 true)).
  eapply stack_effect_app; [apply stack_effect_literal|].
  intros frames1 [H1 H1']. specialize (H1' eq_refl).
  eapply stack_effect_app.
  { apply stack_effect_frame, stack_effect_column. }
  intros frames2 (new & -> & H2 & H2'). specialize (H2' eq_refl).
  eapply stack_effect_weaken.
  { apply stack_effect_operator. rewrite length_app. lia. }
  intros frames (v & ->).
  assert (length (new ++ frames1) = 2%nat) as Hlen by (rewrite length_app; lia).
  rewrite drop_ge by lia. by split.
Qed.

Lemma stack_effect_each cv force_bool clauses :
  Forall (λ clause, ∀ force_bool symbols,
            _serialize clause force_bool = Ok symbols →
            ∀ stack, stack_effect cv symbols [] stack
                       (frames_count 1 (operators_callable clause))) clauses →
  ∀ symbols, serialize_each (λ clause, _serialize clause force_bool) clauses = Ok symbols →
  ∀ stack, stack_effect cv symbols [] stack
             (frames_count (length clauses) (forallb operators_callable clauses)).
Proof.
  induction 1 as [|clause rest Hclause _ IH]; simpl; intros symbols Hs stack.
  - injection Hs as <-. unfold stack_effect. simpl. exists []. by repeat split.
  - destruct (_serialize clause force_bool) as [first|] eqn:Hfirst; simpl in Hs; [|done].
    destruct (serialize_each _ rest) as [more|]; simpl in Hs; [|done].
    injection Hs as <-.
    eapply stack_effect_app; [by eapply Hclause|].
    intros frames1 [H1 H1'].
    eapply stack_effect_weaken; [apply stack_effect_frame, IH; done|].
    intros frames (new & -> & H2 & H2'). unfold frames_count.
    rewrite length_app. split; [lia|].
    intros [Hc Hr]%andb_true_iff. rewrite H1', H2' by done. lia.
Qed.

(** The symbols of an expression push on the stack they are given, which
    they do not read: at least one frame, and exactly one unless the
    operator of some unary expression is [None] or that of some binary
    expression is mapped to [None]. *)
Lemma serialize_stack_effect cv expr :
  ∀ force_bool symbols,
    _serialize expr force_bool = Ok symbols →
    ∀ stack, stack_effect cv symbols [] stack
               (frames_count 1 (operators_callable expr)).
Proof.
  induction expr as [v|element _| |c|element op|target op IH|op clauses IH|l r op IHl IHr|t]
    using ClauseElement_tree_ind; intros force_bool symbols Hs stack.
  - simp _serialize in Hs. injection Hs as <-. apply stack_effect_literal.
  - simp _serialize in Hs. destruct (element_values element); simpl in Hs; [|done].
    injection Hs as <-. apply stack_effect_literal.
  - simp _serialize in Hs. injection Hs as <-. apply stack_effect_literal.
  - rewrite serialize_Column in Hs.
    destruct (force_bool && negb (isinstance_Boolean (type_ c))).
    + rewrite serialize_isnot_None in Hs. injection Hs as <-.
      apply stack_effect_null_test.
    + injection Hs as <-. apply stack_effect_column.
  - rewrite serialize_AsBoolean in Hs.
    destruct (OPERATOR_MAP op) as [[f|]|]; simplify_eq.
    + change (stack_effect cv ([mkSymbol (PyColumn element) None]
                ++ [mkSymbol (PyCallable f) (Some 1%nat)]) [] stack (frames_count 1 true)).
      eapply stack_effect_app; [apply stack_effect_column|].
      intros frames1 [H1 H1']. specialize (H1' eq_refl).
      eapply stack_effect_weaken; [by apply stack_effect_operator|].
      intros frames (v & ->). rewrite drop_ge by lia. by split.
    + apply stack_effect_column.
  - rewrite serialize_UnaryExpression in Hs.
    destruct (force_bool && is_operator_inv op && is_Column target) eqn:Hif.
    + destruct target; try (by rewrite andb_false_r in Hif). simpl in Hs.
      rewrite serialize_is_None in Hs. injection Hs as <-.
      destruct op as [f|]; [|by rewrite andb_false_r in Hif].
      apply stack_effect_null_test.
    + destruct (_serialize target force_bool) as [inner|] eqn:Hinner; simpl in Hs; [|done].
      injection Hs as <-.
      eapply stack_effect_app; [by eapply IH|].
      intros frames1 [H1 H1'].
      destruct op as [f|].
      * eapply stack_effect_weaken; [by apply stack_effect_operator|].
        intros frames (v & ->). unfold frames_count in *.
        cbn [length]. rewrite length_drop. split; [lia|].
        intros Hc. simpl in Hc. rewrite H1'; [done|].
        destruct (operators_callable target); [done|].
        by rewrite ?andb_false_r in Hc.
      * unfold stack_effect. simpl. exists (VNone :: frames1).
        split; [done|]. split; [simpl; lia|done].
  - rewrite serialize_BooleanClauseList in Hs.
    destruct (serialize_each _ clauses) as [inner|] eqn:Hinner; simpl in Hs; [|done].
    injection Hs as <-.
    eapply stack_effect_app; [by eapply stack_effect_each|].
    intros frames1 [H1 H1'].
    eapply stack_effect_weaken; [by apply stack_effect_operator|].
    intros frames (v & ->). unfold frames_count in *. simpl.
      rewrite length_drop. split; [lia|].
    intros Hc. rewrite H1' by done. lia.
  - rewrite serialize_BinaryExpression in Hs.
    destruct (is_custom_op op); [done|].
    destruct (_serialize r false) as [right_symbols|] eqn:Hr; simpl in Hs; [|done].
    destruct (_serialize l false) as [left_symbols|] eqn:Hl; simpl in Hs; [|done].
    injection Hs as <-.
    eapply stack_effect_app; [by eapply IHr|].
    intros frames1 [H1 H1'].
    eapply stack_effect_app; [by eapply stack_effect_frame, IHl|].
    intros frames2 (new & -> & H2 & H2'). simpl.
    destruct (OPERATOR_MAP_get op) as [f|] eqn:Hop; simpl.
    + eapply stack_effect_weaken.
      { apply stack_effect_operator. rewrite length_app. lia. }
      intros frames (v & ->). unfold frames_count in *. simpl.
      rewrite length_drop, length_app. split; [lia|].
      intros [Hcl Hcr]%andb_true_iff.
      rewrite H1', H2' by done. done.
    + unfold stack_effect. simpl. exists (VNone :: new ++ frames1).
      split; [done|]. split; [simpl; lia|].
      done.
  - by simp _serialize in Hs.
Qed.

(** What [evaluate] returns follows from what its loop leaves. *)
Lemma evaluate_of_serialized cv expr force_bool symbols :
  _serialize expr force_bool = Ok symbols →
  match evaluate_loop cv symbols [] with
  | Ok stack =>
      ∃ v rest, stack = v :: rest ∧ evaluate symbols cv = Ok v
                ∧ (operators_callable expr = true → rest = [])
  | Raise e => raised_by_values e ∧ evaluate symbols cv = Raise e
  end.
Proof.
  intros Hs. pose proof (serialize_stack_effect cv expr _ _ Hs []) as H.
  unfold stack_effect, evaluate in *. simpl in H.
  destruct (evaluate_loop cv symbols []) as [stack|e]; simpl; [|done].
  destruct H as (frames & -> & Hn & Hex). rewrite app_nil_r.
  destruct frames as [|v rest]; simpl in *; [lia|].
  exists v, rest. split; [done|]. split; [done|].
  intros Hc. specialize (Hex Hc). destruct rest; simpl in *; [done|lia].
Qed.

(** ** Columns that the values lack *)

Lemma columns_cons symbol symbols c :
  c ∈ columns (symbol :: symbols) ↔ value symbol = PyColumn c ∨ c ∈ columns symbols.
Proof.
  unfold columns. simpl. destruct (value symbol) as [v|c'|f]; simpl.
  - split; [by right|]. by intros [|].
  - rewrite elem_of_union, elem_of_singleton. split.
    + intros [->|]; [by left|by right].
    + intros [[= ->]|]; [by left|by right].
  - split; [by right|]. by intros [|].
Qed.

Lemma columns_app symbols1 symbols2 c :
  c ∈ columns (symbols1 ++ symbols2) ↔ c ∈ columns symbols1 ∨ c ∈ columns symbols2.
Proof.
  induction symbols1 as [|s rest IH]; simpl.
  - unfold columns at 2. simpl. rewrite elem_of_empty. tauto.
  - rewrite !columns_cons, IH. tauto.
Qed.

Lemma popn_raises n stack e : popn n stack = Raise e → e = PopFromEmpty.
Proof.
  revert stack. induction n as [|n IH]; intros stack; simpl; [done|].
  destruct stack as [|frame rest]; simpl; [by intros [= <-]|].
  destruct (popn n rest) as [[frames rest']|e'] eqn:Hp; simpl; [done|].
  intros [= <-]. by eapply IH.
Qed.

Lemma evaluate_symbol_missing cv stack symbol c :
  evaluate_symbol cv stack symbol = Raise (MissingColumnValue c) →
  value symbol = PyColumn c ∧ cv !! c = None.
Proof.
  unfold evaluate_symbol. destruct (value symbol) as [v|c'|f]; [done| |].
  - destruct (cv !! c') eqn:Hc; [done|]. by intros [= ->].
  - destruct (arity symbol); [|done].
    destruct (popn _ _) as [[args rest]|e] eqn:Hp; simpl.
    + destruct (call f args); done.
    + apply popn_raises in Hp as ->. done.
Qed.

Lemma evaluate_loop_missing cv symbols stack c :
  evaluate_loop cv symbols stack = Raise (MissingColumnValue c) →
  c ∈ columns symbols ∧ cv !! c = None.
Proof.
  revert stack. induction symbols as [|s rest IH]; intros stack; simpl; [done|].
  destruct (evaluate_symbol cv stack s) as [stack'|e] eqn:Hs; simpl.
  - intros [Hin Hc]%IH. split; [|done]. apply columns_cons. by right.
  - intros [= ->]. apply evaluate_symbol_missing in Hs as [Hv Hc].
    split; [|done]. apply columns_cons. by left.
Qed.

(** The first column symbol whose column has no value. *)
Lemma first_missing_column (cv : gmap Column pyval) symbols c :
  c ∈ columns symbols → cv !! c = None →
  ∃ before symbol c' after,
    symbols = before ++ symbol :: after ∧ value symbol = PyColumn c' ∧
    cv !! c' = None ∧ ∀ c'', c'' ∈ columns before → is_Some (cv !! c'').
Proof.
  induction symbols as [|s rest IH]; intros Hin Hc.
  - unfold columns in Hin. simpl in Hin. by apply elem_of_empty in Hin.
  - destruct (value s) as [v|c0|f] eqn:Hv.
    1,3: apply columns_cons in Hin as [Hin|Hin]; [congruence|];
         destruct (IH Hin Hc) as (before & symbol & c' & after & -> & Hs & Hc' & Hb);
         exists (s :: before), symbol, c', after; repeat split; [done..|];
         intros c'' [Hc''|Hc'']%columns_cons; [congruence|by apply Hb].
    destruct (cv !! c0) as [v0|] eqn:Hc0.
    + apply columns_cons in Hin as [Hin|Hin]; [congruence|].
      destruct (IH Hin Hc) as (before & symbol & c' & after & -> & Hs & Hc' & Hb).
      exists (s :: before), symbol, c', after. repeat split; [done..|].
      intros c'' [Hc''|Hc'']%columns_cons; [|by apply Hb].
      rewrite Hv in Hc''. by simplify_eq.
    + exists [], s, c0, rest. repeat split; [done..|].
      intros c''. unfold columns. simpl. by intros ?%elem_of_empty.
Qed.

(** ** [rephrase_as_boolean] and the store *)

Lemma new_spec (h : store) o a h' :
  new h o = (a, h') → h !! a = None ∧ h' = <[a := o]> h.
Proof.
  unfold new. intros [= <- <-]. split; [|done].
  apply not_elem_of_dom, is_fresh.
Qed.

Lemma new_null_test_spec (h : store) column op result h' :
  new_null_test h column op = (result, h') →
  h !! result = None ∧ h ⊆ h' ∧
  ∃ null, h !! null = None ∧ h' !! null = Some ObjNull ∧
          h' !! result = Some (ObjBinaryExpression column null op).
Proof.
  unfold new_null_test.
  destruct (new h ObjNull) as [null h1] eqn:H1.
  apply new_spec in H1 as [Hnull ->]. intros [Hr ->]%new_spec.
  assert (result ≠ null) as Hne.
  { intros ->. by rewrite lookup_insert_eq in Hr. }
  rewrite lookup_insert_ne in Hr by done.
  split; [done|]. split.
  - etrans; [|by apply insert_subseteq; rewrite lookup_insert_ne].
    by apply insert_subseteq.
  - exists null. split; [done|]. split.
    + by rewrite lookup_insert_ne, lookup_insert_eq.
    + by rewrite lookup_insert_eq.
Qed.

Lemma tree_at_weaken depth (h h' : store) a tree :
  h ⊆ h' → tree_at depth h a = Some tree → tree_at depth h' a = Some tree.
Proof.
  intros Hsub. revert a tree. induction depth as [|depth IH]; intros a tree; simpl; [done|].
  destruct (h !! a) as [o|] eqn:Ho; simpl; [|done].
  rewrite (lookup_weaken _ _ _ _ Ho Hsub). simpl.
  assert (∀ addresses trees,
            mapM (tree_at depth h) addresses = Some trees →
            mapM (tree_at depth h') addresses = Some trees) as HmapM.
  { intros addresses trees. rewrite !mapM_Some. intros HF.
    eapply Forall2_impl; [exact HF|]. apply IH. }
  destruct o as [v|element| |c|element op|element op|op clauses|l r op|t]; try done.
  - destruct (mapM (tree_at depth h) element) as [trees|] eqn:Hm; simpl; [|done].
    by rewrite (HmapM _ _ Hm).
  - destruct (h !! element) as [[]|] eqn:He; try done.
    by rewrite (lookup_weaken _ _ _ _ He Hsub).
  - destruct (tree_at depth h element) as [target|] eqn:Ht; simpl; [|done].
    by rewrite (IH _ _ Ht).
  - destruct (mapM (tree_at depth h) clauses) as [trees|] eqn:Hm; simpl; [|done].
    by rewrite (HmapM _ _ Hm).
  - destruct (tree_at depth h l) as [lt|] eqn:Hl; simpl; [|done].
    rewrite (IH _ _ Hl). simpl.
    destruct (tree_at depth h r) as [rt|] eqn:Hr; simpl; [|done].
    by rewrite (IH _ _ Hr).
Qed.

Lemma same_but_clauses_refl o : same_but_clauses o o.
Proof. destruct o; simpl; eauto. Qed.

Lemma same_but_clauses_trans o1 o2 o3 :
  same_but_clauses o1 o2 → same_but_clauses o2 o3 → same_but_clauses o1 o3.
Proof.
  destruct o1; simpl; try (by intros ->).
  intros (c2 & -> & H2). simpl. intros (c3 & -> & H3). exists c3. split; [done|lia].
Qed.

Lemma rewritten_in_place_refl h : rewritten_in_place h h.
Proof. intros a o Ho. exists o. split; [done|apply same_but_clauses_refl]. Qed.

Lemma rewritten_in_place_trans h1 h2 h3 :
  rewritten_in_place h1 h2 → rewritten_in_place h2 h3 → rewritten_in_place h1 h3.
Proof.
  intros H12 H23 a o Ho. destruct (H12 _ _ Ho) as (o2 & Ho2 & Hs2).
  destruct (H23 _ _ Ho2) as (o3 & Ho3 & Hs3). exists o3. split; [done|].
  by eapply same_but_clauses_trans.
Qed.

Lemma rewritten_in_place_subseteq (h h' : store) : h ⊆ h' → rewritten_in_place h h'.
Proof.
  intros Hsub a o Ho. exists o. split; [by eapply lookup_weaken|].
  apply same_but_clauses_refl.
Qed.

Lemma map_in_store_in_place f :
  (∀ h a a' h', f h a = Some (a', h') → rewritten_in_place h h') →
  ∀ addresses h addresses' h',
    map_in_store f h addresses = Some (addresses', h') →
    rewritten_in_place h h' ∧ length addresses' = length addresses.
Proof.
  intros Hf. induction addresses as [|a rest IH]; intros h addresses' h'; simpl.
  - intros [= <- <-]. split; [apply rewritten_in_place_refl|done].
  - destruct (f h a) as [[a' h1]|] eqn:Ha; simpl; [|done].
    destruct (map_in_store f h1 rest) as [[rest' h2]|] eqn:Hrest; simpl; [|done].
    intros [= <- <-]. destruct (IH _ _ _ Hrest) as [H12 Hlen]. split.
    + eapply rewritten_in_place_trans; [by eapply Hf|done].
    + simpl. by rewrite Hlen.
Qed.

(** [rephrase_as_boolean] builds new objects and assigns to the [clauses] of
    clause lists; it changes nothing else. *)
Lemma rephrase_as_boolean_in_place depth :
  ∀ h expr result h',
    rephrase_as_boolean depth h expr = Some (result, h') → rewritten_in_place h h'.
Proof.
  induction depth as [|depth IH]; intros h expr result h'; simpl; [done|].
  destruct (h !! expr) as [o|] eqn:Ho; simpl; [|done].
  destruct o as [v|element| |c|element op|element op|op clauses|l r op|t];
    try (intros [= <- <-]; apply rewritten_in_place_refl).
  - destruct (negb _); [|intros [= <- <-]; apply rewritten_in_place_refl].
    intros H%(inj Some). apply new_null_test_spec in H as (_ & Hsub & _).
    by apply rewritten_in_place_subseteq.
  - destruct (_ && _); [|intros [= <- <-]; apply rewritten_in_place_refl].
    intros H%(inj Some). apply new_null_test_spec in H as (_ & Hsub & _).
    by apply rewritten_in_place_subseteq.
  - destruct (_ && _); [|intros [= <- <-]; apply rewritten_in_place_refl].
    intros H%(inj Some). apply new_null_test_spec in H as (_ & Hsub & _).
    by apply rewritten_in_place_subseteq.
  - destruct (map_in_store _ h clauses) as [[clauses' h1]|] eqn:Hmap; simpl; [|done].
    intros [= <- <-].
    destruct (map_in_store_in_place _ IH _ _ _ _ Hmap) as [H1 Hlen].
    intros a o Ha. destruct (H1 _ _ Ha) as (o1 & Ho1 & Hs1).
    destruct (decide (a = expr)) as [->|Hne].
    + rewrite lookup_alter_eq, Ho1. simpl. eexists. split; [done|].
      rewrite Ho in Ha. injection Ha as <-. simpl in *.
      destruct Hs1 as (c1 & -> & Hc1). simpl. eauto.
    + rewrite lookup_alter_ne by done. eauto.
Qed.

Lemma rephrase_as_boolean_extends depth h expr o result h' :
  rephrase_as_boolean depth h expr = Some (result, h') →
  h !! expr = Some o → is_clause_list o = false → h ⊆ h'.
Proof.
  destruct depth as [|depth]; simpl; [done|]. intros H Ho Hcl. rewrite Ho in H.
  simpl in H.
  destruct o as [v|element| |c|element op|element op|op clauses|l r op|t];
    try done; try (by injection H as <- <-).
  - destruct (negb _); [|by injection H as <- <-].
    apply (inj Some) in H. by apply new_null_test_spec in H as (_ & Hsub & _).
  - destruct (_ && _); [|by injection H as <- <-].
    apply (inj Some) in H. by apply new_null_test_spec in H as (_ & Hsub & _).
  - destruct (_ && _); [|by injection H as <- <-].
    apply (inj Some) in H. by apply new_null_test_spec in H as (_ & Hsub & _).
Qed.

Lemma tree_at_BinaryExpression depth (h : store) a l r op :
  tree_at depth h a = Some (BinaryExpression l r op) →
  ∃ al ar, h !! a = Some (ObjBinaryExpression al ar op).
Proof.
  destruct depth as [|depth]; simpl; [done|].
  destruct (h !! a) as [o|]; simpl; [|done].
  destruct o as [v|element| |c|element op'|element op'|op' clauses|al ar op'|t];
    try done.
  - by destruct (mapM _ _).
  - by destruct (h !! element) as [[]|].
  - by destruct (tree_at depth h element).
  - by destruct (mapM _ _).
  - destruct (tree_at depth h al); simpl; [|done].
    destruct (tree_at depth h ar); simpl; [|done].
    intros [= _ _ <-]. eauto.
Qed.

(** [rephrase_as_boolean] returns a binary expression as it is. *)
Lemma rephrase_as_boolean_binary depth (h : store) a al ar op :
  h !! a = Some (ObjBinaryExpression al ar op) →
  rephrase_as_boolean (S depth) h a = Some (a, h).
Proof. intros Ha. simpl. by rewrite Ha. Qed.

Lemma Expression__init__binary depth (h : store) a l r op force_bool :
  tree_at depth h a = Some (BinaryExpression l r op) →
  Expression__init__ depth h a force_bool =
  Some (h, symbols ← _serialize (BinaryExpression l r op) force_bool;
           Ok (mkExpression a symbols)).
Proof.
  intros Ht. unfold Expression__init__.
  destruct (tree_at_BinaryExpression _ _ _ _ _ _ Ht) as (al & ar & Ha).
  destruct depth as [|depth]; [done|].
  pose proof (rephrase_as_boolean_binary depth h a al ar op Ha) as Hr.
  remember (S depth) as d eqn:Hd.
  assert ((if force_bool then rephrase_as_boolean d h a else Some (a, h))
          = Some (a, h)) as -> by (by destruct force_bool).
  simpl. by rewrite Ht.
Qed.

(** ** Properties *)

(** C1: for a column [c] that is not of Boolean type, the bare column
    serialized with [force_bool] evaluates to [False] where [c] is [None] and
    to [True] where [c] is any other value; the inverted column [~c]
    serialized with [force_bool] evaluates to [True] exactly when the values
    map [c] to [None]. *)
Theorem C1_forced_boolean_null_semantics (c : Column) :
  isinstance_Boolean (type_ c) = false →
  ∃ bare inverted,
    _serialize (Column_ c) true = Ok bare ∧
    _serialize (UnaryExpression (Column_ c) (Some operator_inv)) true = Ok inverted ∧
    (∀ column_values : gmap Column pyval,
       column_values !! c = Some VNone →
       evaluate bare column_values = Ok (VBool false)) ∧
    (∀ (column_values : gmap Column pyval) v,
       column_values !! c = Some v → v ≠ VNone →
       evaluate bare column_values = Ok (VBool true)) ∧
    (∀ column_values : gmap Column pyval,
       evaluate inverted column_values = Ok (VBool true) ↔
       column_values !! c = Some VNone).
Proof.
  intros Hc. eexists _, _. split; [|split].
  - rewrite serialize_Column, Hc. simpl. apply serialize_isnot_None.
  - rewrite serialize_UnaryExpression. simpl. apply serialize_is_None.
  - split; [|split]; intros cv; rewrite evaluate_null_test.
    + by intros ->.
    + intros v -> Hne. simpl. rewrite py_eq_None. by destruct v.
    + destruct (cv !! c) as [v|]; simpl; [|split; discriminate].
      rewrite py_eq_None. destruct v; simpl; split; intros H; congruence.
Qed.

Lemma C1_forced_boolean_null_semantics_witness :
  ∃ bare inverted,
    _serialize (Column_ (mkColumn "c" Integer)) true = Ok bare ∧
    _serialize (UnaryExpression (Column_ (mkColumn "c" Integer)) (Some operator_inv)) true
      = Ok inverted ∧
    evaluate bare {[ mkColumn "c" Integer := VNone ]} = Ok (VBool false) ∧
    evaluate bare {[ mkColumn "c" Integer := VInt 5 ]} = Ok (VBool true) ∧
    evaluate inverted {[ mkColumn "c" Integer := VNone ]} = Ok (VBool true).
Proof.
  destruct (C1_forced_boolean_null_semantics (mkColumn "c" Integer) eq_refl)
    as (bare & inverted & H1 & H2 & H3 & H4 & H5).
  exists bare, inverted. split; [exact H1|]. split; [exact H2|].
  split; [apply H3; reflexivity|].
  split; [apply (H4 _ (VInt 5)); [reflexivity|discriminate]|].
  apply H5. reflexivity.
Defined.

(** C6: serializing an [AsBoolean] node yields the symbol of the wrapped
    element and then, for [operators.isfalse], exactly one more symbol, the
    unary operator [operator.not_]; for [operators.istrue], nothing more. *)
Theorem C6_as_boolean_isfalse_istrue (element : Column) (force_bool : bool) :
  _serialize (AsBoolean element operators_isfalse) force_bool =
    Ok [mkSymbol (PyColumn element) None;
        mkSymbol (PyCallable operator_not_) (Some 1%nat)] ∧
  type (mkSymbol (PyCallable operator_not_) (Some 1%nat)) = SymbolType.operator ∧
  _serialize (AsBoolean element operators_istrue) force_bool =
    Ok [mkSymbol (PyColumn element) None].
Proof. by rewrite !serialize_AsBoolean. Qed.

(** C7: serializing a binary expression whose operator is a [custom_op]
    raises the unsupported operator error, whatever its operands are, and
    so yields no symbols at all; [Expression(...)] on such an expression
    raises it too and builds no expression. *)
Theorem C7_custom_operator_unsupported (l r : ClauseElement) (opstring : string)
    (force_bool : bool) :
  _serialize (BinaryExpression l r (operators_custom_op opstring)) force_bool =
    Raise (UnsupportedOperator (operators_custom_op opstring)) ∧
  (∀ depth (h : store) expression h' outcome,
     tree_at depth h expression
       = Some (BinaryExpression l r (operators_custom_op opstring)) →
     Expression__init__ depth h expression force_bool = Some (h', outcome) →
     outcome = Raise (UnsupportedOperator (operators_custom_op opstring))).
Proof.
  split; [by rewrite serialize_BinaryExpression|].
  intros depth h expression h' outcome Ht.
  rewrite (Expression__init__binary _ _ _ _ _ _ _ Ht).
  rewrite serialize_BinaryExpression. simpl. by intros [= <- <-].
Qed.

Lemma C7_custom_operator_unsupported_witness :
  Expression__init__ 2 store_a_custom_b 3%positive true
  = Some (store_a_custom_b, Raise (UnsupportedOperator (operators_custom_op "@@"))) ∧
  ∀ outcome,
    Expression__init__ 2 store_a_custom_b 3%positive true
      = Some (store_a_custom_b, outcome) →
    outcome = Raise (UnsupportedOperator (operators_custom_op "@@")).
Proof.
  split; [reflexivity|]. intros outcome.
  exact (proj2 (C7_custom_operator_unsupported (Column_ column_a) (Column_ column_b)
                  "@@" true) 2%nat store_a_custom_b 3%positive store_a_custom_b
               outcome eq_refl).
Defined.

(** C9: the [columns] of an expression are exactly the columns that are the
    value of some column symbol of its [serialized] tuple, each once. *)
Theorem C9_columns_exact (e : Expression) :
  (∀ c : Column,
     c ∈ columns (serialized e) ↔
     ∃ symbol, symbol ∈ serialized e ∧ type symbol = SymbolType.column
               ∧ value symbol = PyColumn c) ∧
  NoDup (elements (columns (serialized e))).
Proof.
  split; [|apply NoDup_elements].
  intros c. unfold columns. rewrite elem_of_list_to_set, list_elem_of_omap.
  split.
  - intros (symbol & Hin & Hv). exists symbol. unfold type.
    destruct (value symbol); by simplify_eq.
  - intros (symbol & Hin & _ & Hv). exists symbol. by rewrite Hv.
Qed.

(** C10: a binary expression serializes to the same symbols with and without
    [force_bool], its operands being serialized without it, and so
    [Expression(...)] builds the same expression from it either way; a
    column compared with a value is a plain column symbol under
    [force_bool] too. *)
Theorem C10_force_bool_stops_at_binary (l r : ClauseElement) (op : pyfunc) :
  _serialize (BinaryExpression l r op) true = _serialize (BinaryExpression l r op) false ∧
  (∀ depth (h : store) expression,
     tree_at depth h expression = Some (BinaryExpression l r op) →
     Expression__init__ depth h expression true
     = Expression__init__ depth h expression false) ∧
  (∀ c v,
     _serialize (BinaryExpression (Column_ c) (BindParameter v) operator_eq) true =
     Ok [mkSymbol (PyValue v) None; mkSymbol (PyColumn c) None;
         mkSymbol (PyCallable operator_eq) (Some 2%nat)]).
Proof.
  split; [by rewrite !serialize_BinaryExpression|]. split.
  - intros depth h expression Ht.
    rewrite !(Expression__init__binary _ _ _ _ _ _ _ Ht).
    by rewrite !serialize_BinaryExpression.
  - intros c v. rewrite serialize_BinaryExpression. by simp _serialize.
Qed.

Lemma C10_force_bool_stops_at_binary_witness :
  Expression__init__ 2 store_a_lt_b 3%positive true
  = Expression__init__ 2 store_a_lt_b 3%positive false.
Proof.
  exact (proj1 (proj2 (C10_force_bool_stops_at_binary a_lt_b_left a_lt_b_right
                         operator_lt)) 2%nat store_a_lt_b 3%positive eq_refl).
Defined.

(** Evaluating a serialized expression never pops from an empty stack: it
    returns a value, or raises an exception that depends on the values
    given (a column without a value, an operator that raises). *)
Theorem serialized_never_underflows (expr : ClauseElement) (force_bool : bool)
    (symbols : list Symbol) (column_values : gmap Column pyval) :
  _serialize expr force_bool = Ok symbols →
  evaluate symbols column_values ≠ Raise PopFromEmpty ∧
  ((∃ v, evaluate symbols column_values = Ok v) ∨
   (∃ e, evaluate symbols column_values = Raise e ∧ raised_by_values e)).
Proof.
  intros Hs. pose proof (evaluate_of_serialized column_values _ _ _ Hs) as H.
  destruct (evaluate_loop column_values symbols []) as [stack|e].
  - destruct H as (v & rest & _ & -> & _). split; [done|]. left. eauto.
  - destruct H as [He ->]. split; [by intros [= ->]|]. right. eauto.
Qed.

Lemma serialized_never_underflows_witness :
  evaluate a_lt_b_symbols {[ column_a := VInt 3 ]} ≠ Raise PopFromEmpty.
Proof.
  apply (serialized_never_underflows a_lt_b false a_lt_b_symbols
           {[ column_a := VInt 3 ]}).
  reflexivity.
Defined.

(** When every operator of the tree is a callable (no unary expression has
    [None] for operator, as [column.desc()] has, and no binary expression an
    operator that [OPERATOR_MAP] maps to [None]), the loop of [evaluate]
    ends, if it ends, with exactly one value on the stack, which [evaluate]
    returns. *)
Theorem serialized_leaves_one_value (expr : ClauseElement) (force_bool : bool)
    (symbols : list Symbol) (column_values : gmap Column pyval) (stack : Stack) :
  operators_callable expr = true →
  _serialize expr force_bool = Ok symbols →
  evaluate_loop column_values symbols [] = Ok stack →
  ∃ v, stack = [v] ∧ evaluate symbols column_values = Ok v.
Proof.
  intros Hc Hs Hl. pose proof (evaluate_of_serialized column_values _ _ _ Hs) as H.
  rewrite Hl in H. destruct H as (v & rest & -> & Hv & Hr).
  rewrite (Hr Hc). eauto.
Qed.

Lemma serialized_leaves_one_value_witness :
  ∃ v, [VBool true] = [v] ∧
       evaluate a_lt_b_symbols {[ column_a := VInt 3; column_b := VInt 5 ]} = Ok v.
Proof.
  apply (serialized_leaves_one_value a_lt_b false a_lt_b_symbols
           {[ column_a := VInt 3; column_b := VInt 5 ]}); reflexivity.
Defined.

(** C2, at [BinaryExpression(a, b, operators.istrue)]: [_serialize] accepts
    the tree, and the last symbol it yields holds [None], the value that
    [OPERATOR_MAP] stores for [istrue], so it is a literal; with values for
    both columns the loop ends with three values on the stack, of which
    [evaluate] returns the last pushed. *)
Theorem C2_binary_istrue_leaves_three_values :
  _serialize a_istrue_b false =
    Ok [mkSymbol (PyColumn column_b) None; mkSymbol (PyColumn column_a) None;
        mkSymbol (PyValue VNone) (Some 2%nat)] ∧
  type (mkSymbol (PyValue VNone) (Some 2%nat)) = SymbolType.literal ∧
  evaluate_loop {[ column_a := VInt 1; column_b := VInt 2 ]}
    [mkSymbol (PyColumn column_b) None; mkSymbol (PyColumn column_a) None;
     mkSymbol (PyValue VNone) (Some 2%nat)] [] = Ok [VNone; VInt 1; VInt 2] ∧
  evaluate
    [mkSymbol (PyColumn column_b) None; mkSymbol (PyColumn column_a) None;
     mkSymbol (PyValue VNone) (Some 2%nat)]
    {[ column_a := VInt 1; column_b := VInt 2 ]} = Ok VNone.
Proof. repeat split; reflexivity. Qed.

(** C3: a binary expression that serializes yields the symbols of its right
    operand, then those of its left operand, then one symbol of arity 2 for
    its operator; when that symbol holds a function and the operands leave
    one value each, the loop of [evaluate] calls the function on the value
    of the left operand, then that of the right one.  So [a < b] where [a]
    is 3 and [b] is 5 is evaluated as [3 < 5], which is [True], and not as
    [5 < 3], which is [False]. *)
Theorem C3_binary_operand_order :
  (∀ (l r : ClauseElement) (op : pyfunc) (force_bool : bool) (symbols : list Symbol),
     _serialize (BinaryExpression l r op) force_bool = Ok symbols →
     ∃ right_symbols left_symbols,
       _serialize r false = Ok right_symbols ∧
       _serialize l false = Ok left_symbols ∧
       symbols = right_symbols ++ left_symbols
                   ++ [mkSymbol (optional_callable (OPERATOR_MAP_get op)) (Some 2%nat)] ∧
       ∀ f (column_values : gmap Column pyval) stack vl vr,
         OPERATOR_MAP_get op = Some f →
         evaluate_loop column_values right_symbols stack = Ok (vr :: stack) →
         evaluate_loop column_values left_symbols (vr :: stack) = Ok (vl :: vr :: stack) →
         evaluate_loop column_values symbols stack =
         match call f [vl; vr] with
         | Some v => Ok (v :: stack)
         | None => Raise (OperatorRaised f [vl; vr])
         end) ∧
  (∃ symbols,
     _serialize a_lt_b false = Ok symbols ∧
     evaluate symbols {[ column_a := VInt 3; column_b := VInt 5 ]} = Ok (VBool true) ∧
     call operator_lt [VInt 3; VInt 5] = Some (VBool true) ∧
     call operator_lt [VInt 5; VInt 3] = Some (VBool false)).
Proof.
  split.
  - intros l r op force_bool symbols Hs. rewrite serialize_BinaryExpression in Hs.
    destruct (is_custom_op op); [done|].
    destruct (_serialize r false) as [right_symbols|]; simpl in Hs; [|done].
    destruct (_serialize l false) as [left_symbols|]; simpl in Hs; [|done].
    injection Hs as <-. exists right_symbols, left_symbols.
    split; [done|]. split; [done|]. split; [done|].
    intros f cv stack vl vr Hop Hr Hl.
    rewrite evaluate_loop_app, Hr. simpl.
    rewrite evaluate_loop_app, Hl, Hop. simpl.
    unfold evaluate_symbol. simpl. by destruct (call f [vl; vr]).
  - exists a_lt_b_symbols. repeat split; reflexivity.
Qed.

Lemma C3_binary_operand_order_witness :
  evaluate_loop {[ column_a := VInt 3; column_b := VInt 5 ]} a_lt_b_symbols []
  = Ok [VBool true].
Proof.
  destruct (proj1 C3_binary_operand_order a_lt_b_left a_lt_b_right operator_lt false
              a_lt_b_symbols eq_refl)
    as (right_symbols & left_symbols & Hr & Hl & Hs & Heval).
  injection Hr as <-. injection Hl as <-.
  exact (Heval operator_lt {[ column_a := VInt 3; column_b := VInt 5 ]} []
           (VInt 3) (VInt 5) eq_refl eq_refl eq_refl).
Defined.

(** C8, as stated, fails: in [and_(a < 5, b)] evaluated where [a] is [None]
    and [b] has no value, the comparison [None < 5] raises before [b] is
    looked up, so the exception is not the one of the missing value. *)
Lemma C8_operator_raises_before_lookup :
  _serialize a_lt_5_and_b false =
    Ok [mkSymbol (PyValue (VInt 5)) None; mkSymbol (PyColumn column_a) None;
        mkSymbol (PyCallable operator_lt) (Some 2%nat);
        mkSymbol (PyColumn column_b) None;
        mkSymbol (PyCallable operator_and_) (Some 2%nat)] ∧
  ({[ column_a := VNone ]} : gmap Column pyval) !! column_b = None ∧
  evaluate
    [mkSymbol (PyValue (VInt 5)) None; mkSymbol (PyColumn column_a) None;
     mkSymbol (PyCallable operator_lt) (Some 2%nat);
     mkSymbol (PyColumn column_b) None;
     mkSymbol (PyCallable operator_and_) (Some 2%nat)]
    {[ column_a := VNone ]} = Raise (OperatorRaised operator_lt [VNone; VInt 5]).
Proof. repeat split; reflexivity. Qed.

(** C8, amended: when the values lack a column of a serialized expression,
    [evaluate] returns nothing: at the first column symbol whose column has
    no value it raises the exception of the missing value, unless an
    operator called before that symbol has raised; no default value is
    used.  When every column has a value, [evaluate] never raises the
    exception of a missing value. *)
Theorem C8_missing_column_value (expr : ClauseElement) (force_bool : bool)
    (symbols : list Symbol) (column_values : gmap Column pyval) :
  _serialize expr force_bool = Ok symbols →
  ((∃ c, c ∈ columns symbols ∧ column_values !! c = None) →
   ∃ before symbol c after,
     symbols = before ++ symbol :: after ∧ value symbol = PyColumn c ∧
     column_values !! c = None ∧
     (∀ c', c' ∈ columns before → is_Some (column_values !! c')) ∧
     (evaluate symbols column_values = Raise (MissingColumnValue c) ∨
      ∃ f args,
        evaluate_loop column_values before [] = Raise (OperatorRaised f args) ∧
        evaluate symbols column_values = Raise (OperatorRaised f args))) ∧
  ((∀ c, c ∈ columns symbols → is_Some (column_values !! c)) →
   ∀ c, evaluate symbols column_values ≠ Raise (MissingColumnValue c)).
Proof.
  intros Hs. split.
  - intros (c0 & Hin & Hc0).
    destruct (first_missing_column column_values symbols c0 Hin Hc0)
      as (before & symbol & c & after & -> & Hv & Hc & Hb).
    exists before, symbol, c, after. repeat split; [done..|].
    pose proof (evaluate_of_serialized column_values _ _ _ Hs) as H.
    unfold evaluate. rewrite evaluate_loop_app in *.
    destruct (evaluate_loop column_values before []) as [stack|e] eqn:Hbefore; simpl in *.
    + left. unfold evaluate_symbol. by rewrite Hv, Hc.
    + right. destruct H as [He _]. destruct e; try done.
      * apply evaluate_loop_missing in Hbefore as [Hin' Hc'].
        apply Hb in Hin' as [? ?]. congruence.
      * eauto.
  - intros Hall c Hr. unfold evaluate in Hr.
    destruct (evaluate_loop column_values symbols []) as [stack|e] eqn:Hl; simpl in Hr.
    + destruct stack; simpl in Hr; done.
    + injection Hr as ->. apply evaluate_loop_missing in Hl as [Hin Hc].
      apply Hall in Hin as [? ?]. congruence.
Qed.

Lemma columns_of_a_lt_b c :
  c ∈ columns a_lt_b_symbols ↔ c = column_b ∨ c = column_a.
Proof.
  unfold a_lt_b_symbols.
  rewrite !columns_cons. simpl. unfold columns. simpl. rewrite elem_of_empty.
  split.
  - intros [H|[H|[H|H]]]; simplify_eq; eauto; done.
  - intros [H|H]; subst; eauto.
Qed.

Lemma C8_missing_column_value_witness :
  (∃ before symbol c after,
     a_lt_b_symbols = before ++ symbol :: after ∧
     value symbol = PyColumn c ∧
     ({[ column_a := VInt 3 ]} : gmap Column pyval) !! c = None ∧
     (∀ c', c' ∈ columns before →
            is_Some (({[ column_a := VInt 3 ]} : gmap Column pyval) !! c')) ∧
     (evaluate a_lt_b_symbols {[ column_a := VInt 3 ]} = Raise (MissingColumnValue c) ∨
      ∃ f args,
        evaluate_loop {[ column_a := VInt 3 ]} before [] = Raise (OperatorRaised f args) ∧
        evaluate a_lt_b_symbols {[ column_a := VInt 3 ]} = Raise (OperatorRaised f args))) ∧
  evaluate a_lt_b_symbols {[ column_a := VInt 3; column_b := VInt 5 ]}
    ≠ Raise (MissingColumnValue column_a).
Proof.
  split.
  - apply (proj1 (C8_missing_column_value a_lt_b false a_lt_b_symbols
                    {[ column_a := VInt 3 ]} eq_refl)).
    exists column_b. split; [apply columns_of_a_lt_b; by left|reflexivity].
  - apply (proj2 (C8_missing_column_value a_lt_b false a_lt_b_symbols
                    {[ column_a := VInt 3; column_b := VInt 5 ]} eq_refl)).
    intros c [->| ->]%columns_of_a_lt_b; eexists; reflexivity.
Defined.

Lemma tree_at_AsBoolean depth (h : store) a c op :
  tree_at depth h a = Some (AsBoolean c op) →
  ∃ element, h !! a = Some (ObjAsBoolean element op) ∧ h !! element = Some (ObjColumn c).
Proof.
  destruct depth as [|depth]; simpl; [done|].
  destruct (h !! a) as [o|]; simpl; [|done].
  destruct o as [v|element| |c'|element op'|element op'|op' clauses|al ar op'|t];
    try done.
  - by destruct (mapM _ _).
  - destruct (h !! element) as [[| | |c'| | | | |]|] eqn:He; try done.
    intros [= -> ->]. eauto.
  - by destruct (tree_at depth h element).
  - by destruct (mapM _ _).
  - destruct (tree_at depth h al); simpl; [|done].
    by destruct (tree_at depth h ar).
Qed.

Lemma tree_at_Column depth (h : store) a c :
  tree_at depth h a = Some (Column_ c) → h !! a = Some (ObjColumn c).
Proof.
  destruct depth as [|depth]; simpl; [done|].
  destruct (h !! a) as [o|]; simpl; [|done].
  destruct o as [v|element| |c'|element op'|element op'|op' clauses|al ar op'|t];
    try done.
  - by destruct (mapM _ _).
  - by intros [= ->].
  - by destruct (h !! element) as [[]|].
  - by destruct (tree_at depth h element).
  - by destruct (mapM _ _).
  - destruct (tree_at depth h al); simpl; [|done].
    by destruct (tree_at depth h ar).
Qed.

Lemma tree_at_UnaryExpression depth (h : store) a target op :
  tree_at (S depth) h a = Some (UnaryExpression target op) →
  ∃ element, h !! a = Some (ObjUnaryExpression element op) ∧
             tree_at depth h element = Some target.
Proof.
  simpl. destruct (h !! a) as [o|]; simpl; [|done].
  destruct o as [v|element| |c'|element op'|element op'|op' clauses|al ar op'|t];
    try done.
  - by destruct (mapM _ _).
  - by destruct (h !! element) as [[]|].
  - destruct (tree_at depth h element) as [target'|] eqn:Ht; simpl; [|done].
    intros [= -> ->]. eauto.
  - by destruct (mapM _ _).
  - destruct (tree_at depth h al); simpl; [|done].
    by destruct (tree_at depth h ar).
Qed.

(** A unary expression under [operator.inv] built directly over a column of
    Boolean type is rewritten to [column IS NULL] as well: the test of
    [rephrase_as_boolean] on a unary expression does not look at the type of
    the column.  [~flag] does not build this expression, but the one of
    [Column__invert__]. *)
Lemma unary_inv_over_boolean_column_rewritten :
  isinstance_Boolean (type_ column_flag) = true ∧
  tree_at 3 store_inverted_flag 2%positive
    = Some (UnaryExpression (Column_ column_flag) (Some operator_inv)) ∧
  (r ← rephrase_as_boolean 1 store_inverted_flag 2%positive; tree_at 3 r.2 r.1)
    = Some (is_None column_flag) ∧
  Column__invert__ column_flag = AsBoolean column_flag operators_isfalse.
Proof. repeat split; reflexivity. Qed.

(** C4: [rephrase_as_boolean] rewrites the negation [~c] of a column whose
    type is not Boolean to a new [c IS NULL] expression, and returns the
    negation of a column of Boolean type, the very object, with the store as
    it was; it also returns as they are every unary expression whose operand
    is not a column or whose operator is not [operator.inv], every
    [AsBoolean] whose operator is not [operator.inv] (the negation of [~flag]
    is the [AsBoolean] under [operators.istrue]) and every binary expression
    (the form in which SQLAlchemy negates a comparison).
    [_serialize] under [force_bool] agrees: [~c] yields the symbols of
    [c IS NULL] for such a column, and those of the negation itself for a
    column of Boolean type. *)
Theorem C4_rephrase_negation (depth : nat) (h : store) (expr : address) :
  (∀ c, tree_at depth h expr = Some (Column__invert__ c) →
     if isinstance_Boolean (type_ c)
     then rephrase_as_boolean depth h expr = Some (expr, h)
     else ∃ result h',
            rephrase_as_boolean depth h expr = Some (result, h') ∧
            h !! result = None ∧ h ⊆ h' ∧
            tree_at 2 h' result = Some (is_None c)) ∧
  (∀ element op,
     h !! expr = Some (ObjUnaryExpression element op) →
     is_operator_inv op = false ∨ isinstance_Column h element = false →
     rephrase_as_boolean (S depth) h expr = Some (expr, h)) ∧
  (∀ element op,
     h !! expr = Some (ObjAsBoolean element op) →
     is_operator_inv (Some op) = false →
     rephrase_as_boolean (S depth) h expr = Some (expr, h)) ∧
  (∀ l r op,
     h !! expr = Some (ObjBinaryExpression l r op) →
     rephrase_as_boolean (S depth) h expr = Some (expr, h)) ∧
  (∀ c, _serialize (Column__invert__ c) true =
        if isinstance_Boolean (type_ c)
        then Ok [mkSymbol (PyColumn c) None;
                 mkSymbol (PyCallable operator_not_) (Some 1%nat)]
        else _serialize (is_None c) false).
Proof.
  split; [|split; [|split; [|split]]].
  - intros c. unfold Column__invert__.
    destruct (isinstance_Boolean (type_ c)) eqn:Hbool; intros Ht.
    + apply tree_at_AsBoolean in Ht as Ho. destruct Ho as (element & Ho & He).
      destruct depth as [|depth]; [done|]. simpl. by rewrite Ho.
    + destruct depth as [|depth]; [done|].
      apply tree_at_UnaryExpression in Ht as (element & Ho & He).
      apply tree_at_Column in He. simpl. rewrite Ho. simpl.
      unfold isinstance_Column. rewrite He. simpl.
      destruct (new_null_test h element operators_is_) as [result h'] eqn:Hnew.
      exists result, h'. split; [done|].
      apply new_null_test_spec in Hnew as (Hr & Hsub & null & Hn & Hnull & Hres).
      split; [done|]. split; [done|].
      simpl. rewrite Hres. simpl.
      rewrite (lookup_weaken _ _ _ _ He Hsub). simpl. by rewrite Hnull.
  - intros element op Ho Hor. simpl. rewrite Ho. simpl.
    destruct Hor as [-> | ->]; [done|]. by rewrite andb_false_r.
  - intros element op Ho Hinv. simpl. rewrite Ho. simpl. by destruct op.
  - intros l r op Ho. simpl. by rewrite Ho.
  - intros c. unfold Column__invert__.
    destruct (isinstance_Boolean (type_ c)).
    + by rewrite serialize_AsBoolean.
    + by rewrite serialize_UnaryExpression.
Qed.

Lemma C4_rephrase_negation_witness :
  (∃ result h',
     rephrase_as_boolean 2 store_inverted_columns 2%positive = Some (result, h') ∧
     store_inverted_columns !! result = None ∧ store_inverted_columns ⊆ h' ∧
     tree_at 2 h' result = Some (is_None column_a)) ∧
  rephrase_as_boolean 2 store_inverted_columns 4%positive
    = Some (4%positive, store_inverted_columns).
Proof.
  split.
  - exact (proj1 (C4_rephrase_negation 2 store_inverted_columns 2%positive)
                 column_a eq_refl).
  - exact (proj1 (C4_rephrase_negation 2 store_inverted_columns 4%positive)
                 column_flag eq_refl).
Defined.

(** ** Further properties of the stack and of the evaluation loop *)

Lemma popn_short n (stack : Stack) :
  (length stack < n)%nat → popn n stack = Raise PopFromEmpty.
Proof.
  revert stack. induction n as [|n IH]; intros stack Hn; simpl; [lia|].
  destruct stack as [|frame rest]; simpl in *; [done|].
  rewrite IH by lia. done.
Qed.

Lemma popn_long n (stack : Stack) :
  (n ≤ length stack)%nat → popn n stack = Ok (take n stack, drop n stack).
Proof.
  intros Hn. pose proof (popn_app n stack [] Hn) as H.
  by rewrite !app_nil_r in H.
Qed.

(** [Stack.popn]: on a stack of at least [size] frames it returns the
    [size] frames pushed last, the last pushed first, and leaves the others;
    on a shorter stack it raises the error of popping from an empty deque. *)
Theorem popn_takes_last_pushed (size : nat) (stack : Stack) :
  ((size ≤ length stack)%nat →
   popn size stack = Ok (take size stack, drop size stack)) ∧
  ((length stack < size)%nat → popn size stack = Raise PopFromEmpty).
Proof.
  split; [apply popn_long|apply popn_short].
Qed.

Lemma popn_takes_last_pushed_witness :
  popn 2 (push (VInt 3) (push (VInt 2) (push (VInt 1) [])))
    = Ok ([VInt 3; VInt 2], [VInt 1]) ∧
  popn 2 (push (VInt 1) []) = Raise PopFromEmpty.
Proof.
  split.
  - apply (proj1 (popn_takes_last_pushed 2 [VInt 3; VInt 2; VInt 1])). simpl. lia.
  - apply (proj2 (popn_takes_last_pushed 2 [VInt 1])). simpl. lia.
Defined.

Lemma popn_below n (stack below : Stack) args rest :
  popn n stack = Ok (args, rest) → popn n (stack ++ below) = Ok (args, rest ++ below).
Proof.
  destruct (decide (n ≤ length stack)%nat) as [Hn|Hn].
  - rewrite (popn_long n stack Hn). intros [= <- <-].
    by rewrite popn_app.
  - rewrite popn_short by lia. done.
Qed.

Lemma evaluate_symbol_below cv (stack below stack' : Stack) s :
  evaluate_symbol cv stack s = Ok stack' →
  evaluate_symbol cv (stack ++ below) s = Ok (stack' ++ below).
Proof.
  unfold evaluate_symbol. destruct (value s) as [v|c|f].
  - by intros [= <-].
  - destruct (cv !! c); [|done]. by intros [= <-].
  - destruct (arity s) as [n|]; [|done].
    destruct (popn n stack) as [[args rest]|] eqn:Hp; simpl; [|done].
    rewrite (popn_below _ _ below _ _ Hp). simpl.
    destruct (call f args); [|done]. by intros [= <-].
Qed.

(** The loop of [evaluate] reads no more of the stack than its symbols
    pop: what it leaves on a stack, it leaves on the same stack with any
    frames below, and these stay as they are. *)
Theorem evaluate_loop_keeps_frames_below (column_values : gmap Column pyval)
    (symbols : list Symbol) (stack stack' below : Stack) :
  evaluate_loop column_values symbols stack = Ok stack' →
  evaluate_loop column_values symbols (stack ++ below) = Ok (stack' ++ below).
Proof.
  revert stack. induction symbols as [|s rest IH]; intros stack; simpl.
  - by intros [= <-].
  - destruct (evaluate_symbol column_values stack s) as [stack1|] eqn:Hs; simpl; [|done].
    rewrite (evaluate_symbol_below _ _ below _ _ Hs). simpl. apply IH.
Qed.

Lemma evaluate_loop_keeps_frames_below_witness :
  evaluate_loop {[ column_a := VInt 3; column_b := VInt 5 ]} a_lt_b_symbols
    ([] ++ [VStr "below"]) = Ok ([VBool true] ++ [VStr "below"]).
Proof.
  apply (evaluate_loop_keeps_frames_below
           {[ column_a := VInt 3; column_b := VInt 5 ]} a_lt_b_symbols [] [VBool true]).
  reflexivity.
Defined.

Lemma evaluate_symbol_agree (cv1 cv2 : gmap Column pyval) stack s :
  (∀ c, value s = PyColumn c → cv1 !! c = cv2 !! c) →
  evaluate_symbol cv1 stack s = evaluate_symbol cv2 stack s.
Proof.
  intros H. unfold evaluate_symbol. destruct (value s) as [v|c|f]; [done| |done].
  by rewrite (H c).
Qed.

Lemma evaluate_loop_agree (cv1 cv2 : gmap Column pyval) symbols stack :
  (∀ c, c ∈ columns symbols → cv1 !! c = cv2 !! c) →
  evaluate_loop cv1 symbols stack = evaluate_loop cv2 symbols stack.
Proof.
  revert stack. induction symbols as [|s rest IH]; intros stack H; simpl; [done|].
  rewrite (evaluate_symbol_agree cv1 cv2).
  - destruct (evaluate_symbol cv2 stack s); simpl; [|done].
    apply IH. intros c Hc. apply H, columns_cons. by right.
  - intros c Hc. apply H, columns_cons. by left.
Qed.

(** What [evaluate] returns or raises depends on the values of the
    [columns] of the expression only: two mappings that agree on these
    columns give the same outcome. *)
Theorem evaluate_depends_on_columns_only (symbols : list Symbol)
    (column_values1 column_values2 : gmap Column pyval) :
  (∀ c, c ∈ columns symbols → column_values1 !! c = column_values2 !! c) →
  evaluate symbols column_values1 = evaluate symbols column_values2.
Proof. intros H. unfold evaluate. by rewrite (evaluate_loop_agree _ _ _ _ H). Qed.

Lemma evaluate_depends_on_columns_only_witness :
  evaluate a_lt_b_symbols {[ column_a := VInt 3; column_b := VInt 5 ]}
  = evaluate a_lt_b_symbols
      {[ column_a := VInt 3; column_b := VInt 5; column_flag := VBool false ]}.
Proof.
  apply evaluate_depends_on_columns_only.
  intros c [->| ->]%columns_of_a_lt_b; reflexivity.
Defined.

(** ** What [force_bool] leaves as it is *)

Lemma columns_app_L symbols1 symbols2 :
  columns (symbols1 ++ symbols2) = columns symbols1 ∪ columns symbols2.
Proof. apply set_eq. intros c. rewrite columns_app, elem_of_union. done. Qed.

Lemma columns_operator f n : columns [mkSymbol (optional_callable f) n] = ∅.
Proof. by destruct f. Qed.

Lemma columns_null_test c f :
  columns [mkSymbol (PyValue VNone) None; mkSymbol (PyColumn c) None;
           mkSymbol (PyCallable f) (Some 2%nat)] = {[ c ]}.
Proof.
  apply set_eq. intros c'. rewrite !columns_cons. simpl.
  unfold columns. simpl. rewrite elem_of_empty, elem_of_singleton.
  split; [intros [?|[?|[?|[]]]]; by simplify_eq|intros ->; eauto].
Qed.

Lemma columns_column c : columns [mkSymbol (PyColumn c) None] = {[ c ]}.
Proof.
  apply set_eq. intros c'. rewrite columns_cons. simpl.
  unfold columns. simpl. rewrite elem_of_empty, elem_of_singleton.
  split; [intros [?|[]]; by simplify_eq|intros ->; eauto].
Qed.

(** The outcomes of two serializations agree: both raise the same
    exception, or both yield symbols, over the same columns. *)
Definition same_outcome_and_columns (forced plain : result (list Symbol)) : Prop :=
  match forced, plain with
  | Ok forced_symbols, Ok plain_symbols => columns forced_symbols = columns plain_symbols
  | Raise e1, Raise e2 => e1 = e2
  | _, _ => False
  end.

Lemma same_outcome_and_columns_refl outcome : same_outcome_and_columns outcome outcome.
Proof. by destruct outcome. Qed.

Lemma same_outcome_and_columns_each clauses :
  Forall (λ clause, same_outcome_and_columns (_serialize clause true)
                                             (_serialize clause false)) clauses →
  same_outcome_and_columns
    (serialize_each (λ clause, _serialize clause true) clauses)
    (serialize_each (λ clause, _serialize clause false) clauses).
Proof.
  induction 1 as [|clause rest Hc _ IH]; simpl; [done|].
  unfold same_outcome_and_columns in *.
  destruct (_serialize clause true) as [s1|e1], (_serialize clause false) as [s2|e2];
    simpl; try done.
  destruct (serialize_each _ rest) as [r1|e1],
           (serialize_each (λ clause, _serialize clause false) rest) as [r2|e2];
    simpl; try done.
  by rewrite !columns_app_L, Hc, IH.
Qed.

(** [force_bool] changes neither whether an expression serializes, nor the
    exception raised when it does not, nor the columns of the symbols. *)
Theorem force_bool_keeps_outcome_and_columns (expr : ClauseElement) :
  same_outcome_and_columns (_serialize expr true) (_serialize expr false).
Proof.
  induction expr as [v|element _| |c|element op|target op IH|op clauses IH|l r op _ _|t]
    using ClauseElement_tree_ind.
  - simp _serialize. apply same_outcome_and_columns_refl.
  - simp _serialize. apply same_outcome_and_columns_refl.
  - simp _serialize. apply same_outcome_and_columns_refl.
  - rewrite !serialize_Column. simpl.
    destruct (isinstance_Boolean (type_ c)); simpl; [done|].
    rewrite serialize_isnot_None. simpl. by rewrite columns_null_test, columns_column.
  - rewrite !serialize_AsBoolean. apply same_outcome_and_columns_refl.
  - rewrite !serialize_UnaryExpression. simpl.
    destruct (is_operator_inv op && is_Column target) eqn:Hif.
    + destruct target; try (by rewrite andb_false_r in Hif). simpl.
      rewrite serialize_is_None, serialize_Column. simpl.
      rewrite columns_null_test.
      change [mkSymbol (PyColumn c) None; mkSymbol (optional_callable op) (Some 1%nat)]
        with ([mkSymbol (PyColumn c) None] ++ [mkSymbol (optional_callable op) (Some 1%nat)]).
      by rewrite columns_app_L, columns_column, columns_operator, union_empty_r_L.
    + unfold same_outcome_and_columns in *.
      destruct (_serialize target true) as [s1|e1], (_serialize target false) as [s2|e2];
        simpl; try done.
      by rewrite !columns_app_L, IH.
  - rewrite !serialize_BooleanClauseList.
    pose proof (same_outcome_and_columns_each clauses IH) as H.
    unfold same_outcome_and_columns in *.
    destruct (serialize_each _ clauses) as [s1|e1],
             (serialize_each (λ clause, _serialize clause false) clauses) as [s2|e2];
      simpl; try done.
    by rewrite !columns_app_L, H.
  - rewrite !serialize_BinaryExpression. apply same_outcome_and_columns_refl.
  - simp _serialize. apply same_outcome_and_columns_refl.
Qed.

(** ** How the branches of [_serialize] evaluate *)

Lemma popn_length n (stack : Stack) args rest :
  popn n stack = Ok (args, rest) → length args = n.
Proof.
  destruct (decide (n ≤ length stack)%nat) as [Hn|Hn].
  - rewrite popn_long by done. intros [= <- _]. rewrite length_take. lia.
  - rewrite popn_short by lia. done.
Qed.

(** The symbols of clauses that leave one value each leave these values,
    the value of the last clause on top. *)
Lemma evaluate_loop_each cv force_bool clauses values :
  Forall2 (λ clause v, ∀ symbols stack,
             _serialize clause force_bool = Ok symbols →
             evaluate_loop cv symbols stack = Ok (v :: stack)) clauses values →
  ∀ symbols stack,
    serialize_each (λ clause, _serialize clause force_bool) clauses = Ok symbols →
    evaluate_loop cv symbols stack = Ok (rev values ++ stack).
Proof.
  induction 1 as [|clause v rest values Hc _ IH]; simpl; intros symbols stack Hs.
  - by injection Hs as <-.
  - destruct (_serialize clause force_bool) as [first|] eqn:Hfirst; simpl in Hs; [|done].
    destruct (serialize_each _ rest) as [more|] eqn:Hmore; simpl in Hs; [|done].
    injection Hs as <-. rewrite evaluate_loop_app, (Hc _ _ eq_refl). simpl.
    rewrite (IH _ _ eq_refl). by rewrite <- app_assoc.
Qed.

(** A clause list whose clauses leave one value each calls its operator on
    these values in the reverse order of the clauses: the value of the last
    clause is the first argument. *)
Theorem clause_list_calls_operator_on_reversed_values (op : pyfunc)
    (clauses : list ClauseElement) (force_bool : bool) (symbols : list Symbol)
    (column_values : gmap Column pyval) (values : list pyval) (stack : Stack) :
  _serialize (BooleanClauseList op clauses) force_bool = Ok symbols →
  Forall2 (λ clause v, ∀ clause_symbols stack',
             _serialize clause force_bool = Ok clause_symbols →
             evaluate_loop column_values clause_symbols stack' = Ok (v :: stack'))
          clauses values →
  evaluate_loop column_values symbols stack =
  match call op (rev values) with
  | Some v => Ok (v :: stack)
  | None => Raise (OperatorRaised op (rev values))
  end.
Proof.
  intros Hs Hv. rewrite serialize_BooleanClauseList in Hs.
  destruct (serialize_each _ clauses) as [inner|] eqn:Hinner; simpl in Hs; [|done].
  injection Hs as <-. rewrite evaluate_loop_app.
  rewrite (evaluate_loop_each _ _ _ _ Hv _ _ Hinner). simpl.
  unfold evaluate_symbol. simpl.
  assert (length clauses = length (rev values)) as ->.
  { rewrite length_rev. by eapply Forall2_length. }
  rewrite popn_app by done. rewrite take_ge, drop_ge by done. simpl.
  by destruct (call op (rev values)).
Qed.

Lemma clause_list_calls_operator_on_reversed_values_witness :
  evaluate_loop ∅
    [mkSymbol (PyValue (VInt 1)) None; mkSymbol (PyValue (VInt 2)) None;
     mkSymbol (PyCallable operator_lt) (Some 2%nat)] []
  = Ok [VBool false].
Proof.
  apply (clause_list_calls_operator_on_reversed_values operator_lt
           [BindParameter (VInt 1); BindParameter (VInt 2)] false _ ∅
           [VInt 1; VInt 2] [] eq_refl).
  repeat constructor; intros s stack; simp _serialize; by intros [= <-].
Defined.

Lemma call_and_or_arity op args :
  op = operator_and_ ∨ op = operator_or_ → length args ≠ 2%nat → call op args = None.
Proof.
  intros [-> | ->] Hn; destruct args as [|a [|b [|c rest]]]; simpl in *; done.
Qed.

(** A conjunction or disjunction whose number of clauses is not two never
    evaluates to a value: [operator.and_] and [operator.or_] take two
    arguments, and are called with as many as there are clauses. *)
Theorem clause_list_of_and_or_needs_two_clauses (op : pyfunc)
    (clauses : list ClauseElement) (force_bool : bool) (symbols : list Symbol)
    (column_values : gmap Column pyval) :
  op = operator_and_ ∨ op = operator_or_ →
  length clauses ≠ 2%nat →
  _serialize (BooleanClauseList op clauses) force_bool = Ok symbols →
  ∃ e, evaluate symbols column_values = Raise e ∧ raised_by_values e.
Proof.
  intros Hop Hn Hs.
  pose proof (evaluate_of_serialized column_values _ _ _ Hs) as H.
  rewrite serialize_BooleanClauseList in Hs.
  destruct (serialize_each _ clauses) as [inner|]; simpl in Hs; [|done].
  injection Hs as <-. rewrite evaluate_loop_app in H.
  destruct (evaluate_loop column_values inner []) as [stack|e]; simpl in H.
  - unfold evaluate_symbol in H. simpl in H.
    destruct (popn (length clauses) stack) as [[args rest]|e] eqn:Hp; simpl in H.
    + rewrite (call_and_or_arity op args Hop) in H; simpl in H.
      * destruct H as [He ->]. eauto.
      * by rewrite (popn_length _ _ _ _ Hp).
    + destruct H as [He ->]. eauto.
  - destruct H as [He ->]. eauto.
Qed.

Lemma clause_list_of_and_or_needs_two_clauses_witness :
  ∃ e, evaluate
         [mkSymbol (PyValue (VBool true)) None; mkSymbol (PyValue (VBool true)) None;
          mkSymbol (PyValue (VBool true)) None;
          mkSymbol (PyCallable operator_and_) (Some 3%nat)] ∅ = Raise e
       ∧ raised_by_values e.
Proof.
  apply (clause_list_of_and_or_needs_two_clauses operator_and_
           [BindParameter (VBool true); BindParameter (VBool true);
            BindParameter (VBool true)] false _ ∅).
  - by left.
  - simpl. lia.
  - reflexivity.
Defined.

(** A unary expression that is not the inversion of a column under
    [force_bool] serializes to the symbols of its operand followed by one
    symbol of arity 1 that holds its operator.  When the operator is a
    callable, the loop of [evaluate] calls it on the value that the operand
    leaves.  When the operator is [None], as that of [column.desc()] is, the
    symbol is a literal: no operator is called, and [None] is pushed on top
    of the value of the operand, which stays on the stack. *)
Theorem unary_expression_evaluation (target : ClauseElement) (op : option pyfunc)
    (force_bool : bool) (target_symbols : list Symbol)
    (column_values : gmap Column pyval) (v : pyval) (stack : Stack) :
  force_bool && is_operator_inv op && is_Column target = false →
  _serialize target force_bool = Ok target_symbols →
  evaluate_loop column_values target_symbols stack = Ok (v :: stack) →
  _serialize (UnaryExpression target op) force_bool
    = Ok (target_symbols ++ [mkSymbol (optional_callable op) (Some 1%nat)]) ∧
  type (mkSymbol (optional_callable op) (Some 1%nat))
    = match op with
      | Some _ => SymbolType.operator
      | None => SymbolType.literal
      end ∧
  evaluate_loop column_values
    (target_symbols ++ [mkSymbol (optional_callable op) (Some 1%nat)]) stack =
  match op with
  | Some f =>
      match call f [v] with
      | Some result => Ok (result :: stack)
      | None => Raise (OperatorRaised f [v])
      end
  | None => Ok (VNone :: v :: stack)
  end.
Proof.
  intros Hif Hs Hv. split; [|split].
  - rewrite serialize_UnaryExpression, Hif, Hs. simpl. done.
  - by destruct op.
  - rewrite evaluate_loop_app, Hv. simpl. unfold evaluate_symbol.
    destruct op as [f|]; simpl; [|done]. by destruct (call f [v]).
Qed.

Lemma unary_expression_evaluation_witness :
  (_serialize (UnaryExpression (Column_ column_a) (Some operator_inv)) false
     = Ok ([mkSymbol (PyColumn column_a) None]
             ++ [mkSymbol (PyCallable operator_inv) (Some 1%nat)]) ∧
   evaluate_loop {[ column_a := VInt 5 ]}
     ([mkSymbol (PyColumn column_a) None]
        ++ [mkSymbol (PyCallable operator_inv) (Some 1%nat)]) [] = Ok [VInt (-6)]) ∧
  (_serialize (UnaryExpression (Column_ column_a) None) true
     = Ok ([mkSymbol (PyValue VNone) None; mkSymbol (PyColumn column_a) None;
            mkSymbol (PyCallable operator_ne) (Some 2%nat)]
             ++ [mkSymbol (PyValue VNone) (Some 1%nat)]) ∧
   evaluate_loop {[ column_a := VInt 5 ]}
     ([mkSymbol (PyValue VNone) None; mkSymbol (PyColumn column_a) None;
       mkSymbol (PyCallable operator_ne) (Some 2%nat)]
        ++ [mkSymbol (PyValue VNone) (Some 1%nat)]) [] = Ok [VNone; VBool true]).
Proof.
  split.
  - destruct (unary_expression_evaluation (Column_ column_a) (Some operator_inv) false
                [mkSymbol (PyColumn column_a) None] {[ column_a := VInt 5 ]} (VInt 5) [])
      as (Hs & _ & He); [reflexivity..|].
    split; [exact Hs|exact He].
  - destruct (unary_expression_evaluation (Column_ column_a) None true
                [mkSymbol (PyValue VNone) None; mkSymbol (PyColumn column_a) None;
                 mkSymbol (PyCallable operator_ne) (Some 2%nat)]
                {[ column_a := VInt 5 ]} (VBool true) [])
      as (Hs & _ & He); [reflexivity..|].
    split; [exact Hs|exact He].
Defined.

Lemma element_values_BindParameter values :
  element_values (map BindParameter values) = Ok values.
Proof. induction values as [|v rest IH]; simpl; [done|]. by rewrite IH. Qed.

(** [column.in_(values)], a binary expression of the column and a grouping
    of bound values under [operators.in_op], evaluates to whether the value
    of the column equals one of the values. *)
Theorem in_op_tests_membership (c : Column) (values : list pyval) (force_bool : bool)
    (column_values : gmap Column pyval) (v : pyval) :
  column_values !! c = Some v →
  ∃ symbols,
    _serialize (BinaryExpression (Column_ c) (Grouping (map BindParameter values))
                  operators_in_op) force_bool = Ok symbols ∧
    evaluate symbols column_values = Ok (VBool (existsb (py_eq v) values)).
Proof.
  intros Hv. eexists. split.
  - rewrite serialize_BinaryExpression. simpl. simp _serialize.
    rewrite element_values_BindParameter. simpl. done.
  - unfold evaluate, evaluate_loop, evaluate_symbol. simpl. by rewrite Hv.
Qed.

Lemma in_op_tests_membership_witness :
  ∃ symbols,
    _serialize (BinaryExpression (Column_ column_a)
                  (Grouping (map BindParameter [VInt 1; VInt 2; VInt 3]))
                  operators_in_op) true = Ok symbols ∧
    evaluate symbols {[ column_a := VInt 2 ]} = Ok (VBool true).
Proof.
  exact (in_op_tests_membership column_a [VInt 1; VInt 2; VInt 3] true
           {[ column_a := VInt 2 ]} (VInt 2) eq_refl).
Defined.

(** An [AsBoolean] evaluates, for [operators.istrue], to the value of its
    column as it is given, and for [operators.isfalse] to the negation of
    its truth value; for the other operators of [OPERATOR_MAP] the function
    mapped takes two arguments and its call on the one value raises; for any
    other operator, serialization raises the error of the missing key. *)
Theorem as_boolean_evaluation (c : Column) (force_bool : bool)
    (column_values : gmap Column pyval) (v : pyval) :
  column_values !! c = Some v →
  (∃ symbols, _serialize (AsBoolean c operators_istrue) force_bool = Ok symbols ∧
              evaluate symbols column_values = Ok v) ∧
  (∃ symbols, _serialize (AsBoolean c operators_isfalse) force_bool = Ok symbols ∧
              evaluate symbols column_values = Ok (VBool (negb (py_truth v)))) ∧
  (∀ op, op = operators_in_op ∨ op = operators_is_ ∨ op = operators_isnot →
     ∃ symbols f, _serialize (AsBoolean c op) force_bool = Ok symbols ∧
                  OPERATOR_MAP op = Some (Some f) ∧
                  evaluate symbols column_values = Raise (OperatorRaised f [v])) ∧
  (∀ op, OPERATOR_MAP op = None →
     _serialize (AsBoolean c op) force_bool = Raise (OperatorMapKeyError op)).
Proof.
  intros Hv. split; [|split; [|split]].
  - eexists. split; [by rewrite serialize_AsBoolean|].
    unfold evaluate, evaluate_loop, evaluate_symbol. simpl. by rewrite Hv.
  - eexists. split; [by rewrite serialize_AsBoolean|].
    unfold evaluate, evaluate_loop, evaluate_symbol. simpl. by rewrite Hv.
  - intros op [-> | [-> | ->]]; eexists _, _;
      (split; [by rewrite serialize_AsBoolean|]); (split; [done|]);
      unfold evaluate, evaluate_loop, evaluate_symbol; simpl; by rewrite Hv.
  - intros op Hop. by rewrite serialize_AsBoolean, Hop.
Qed.

Lemma as_boolean_evaluation_witness :
  ∃ symbols, _serialize (AsBoolean column_flag operators_istrue) true = Ok symbols ∧
             evaluate symbols {[ column_flag := VInt 7 ]} = Ok (VInt 7).
Proof.
  exact (proj1 (as_boolean_evaluation column_flag true {[ column_flag := VInt 7 ]}
                  (VInt 7) eq_refl)).
Defined.

(** ** [Expression.__init__] on expressions that share no clause list *)

Lemma mapM_cons_Some {A B} (f : A → option B) x xs ys :
  mapM f (x :: xs) = Some ys ↔
  ∃ y ys', f x = Some y ∧ mapM f xs = Some ys' ∧ ys = y :: ys'.
Proof.
  simpl. destruct (f x) as [y|]; simpl.
  - destruct (mapM f xs) as [ys'|]; simpl.
    + split; [intros [= <-]; eauto|]. by intros (? & ? & [= <-] & [= <-] & ->).
    + split; [done|]. by intros (? & ? & _ & ? & _).
  - split; [done|]. by intros (? & ? & ? & _).
Qed.

Lemma tree_at_S depth : ∀ (h : store) a tree,
  tree_at depth h a = Some tree → tree_at (S depth) h a = Some tree.
Proof.
  induction depth as [|depth IH]; intros h a tree; [done|].
  intros H. change (tree_at (S (S depth)) h a) with
    (o ← h !! a;
     match o with
     | ObjBindParameter value => Some (BindParameter value)
     | ObjGrouping element => Grouping <$> mapM (tree_at (S depth) h) element
     | ObjNull => Some Null
     | ObjColumn c => Some (Column_ c)
     | ObjAsBoolean element op =>
         match h !! element with
         | Some (ObjColumn c) => Some (AsBoolean c op)
         | _ => None
         end
     | ObjUnaryExpression element op =>
         target ← tree_at (S depth) h element; Some (UnaryExpression target op)
     | ObjBooleanClauseList op clauses =>
         BooleanClauseList op <$> mapM (tree_at (S depth) h) clauses
     | ObjBinaryExpression l r op =>
         left_tree ← tree_at (S depth) h l;
         right_tree ← tree_at (S depth) h r;
         Some (BinaryExpression left_tree right_tree op)
     | ObjOther type_name => Some (OtherElement type_name)
     end).
  simpl in H. destruct (h !! a) as [o|]; simpl in *; [|done].
  assert (∀ addresses trees,
            mapM (tree_at depth h) addresses = Some trees →
            mapM (tree_at (S depth) h) addresses = Some trees) as HmapM.
  { intros addresses trees. rewrite !mapM_Some. intros HF.
    eapply Forall2_impl; [exact HF|]. apply IH. }
  destruct o as [v|element| |c|element op|element op|op clauses|l r op|t]; try done.
  - destruct (mapM (tree_at depth h) element) as [trees|] eqn:Hm; simpl in *; [|done].
    by rewrite (HmapM _ _ Hm).
  - destruct (tree_at depth h element) as [target|] eqn:Ht; simpl in *; [|done].
    by rewrite (IH _ _ _ Ht).
  - destruct (mapM (tree_at depth h) clauses) as [trees|] eqn:Hm; simpl in *; [|done].
    by rewrite (HmapM _ _ Hm).
  - destruct (tree_at depth h l) as [lt|] eqn:Hl; simpl in *; [|done].
    rewrite (IH _ _ _ Hl). simpl.
    destruct (tree_at depth h r) as [rt|] eqn:Hr; simpl in *; [|done].
    by rewrite (IH _ _ _ Hr).
Qed.

Lemma clause_lists_at_unfold depth (h : store) a :
  clause_lists_at (S depth) h a =
  o ← h !! a;
  match o with
  | ObjGrouping element =>
      inner ← mapM (clause_lists_at depth h) element; Some (concat inner)
  | ObjUnaryExpression element _ => clause_lists_at depth h element
  | ObjBooleanClauseList _ clauses =>
      inner ← mapM (clause_lists_at depth h) clauses; Some (a :: concat inner)
  | ObjBinaryExpression l r _ =>
      left_lists ← clause_lists_at depth h l;
      right_lists ← clause_lists_at depth h r;
      Some (left_lists ++ right_lists)
  | _ => Some []
  end.
Proof. done. Qed.

Lemma tree_at_unfold depth (h : store) a :
  tree_at (S depth) h a =
  o ← h !! a;
  match o with
  | ObjBindParameter value => Some (BindParameter value)
  | ObjGrouping element => Grouping <$> mapM (tree_at depth h) element
  | ObjNull => Some Null
  | ObjColumn c => Some (Column_ c)
  | ObjAsBoolean element op =>
      match h !! element with
      | Some (ObjColumn c) => Some (AsBoolean c op)
      | _ => None
      end
  | ObjUnaryExpression element op =>
      target ← tree_at depth h element; Some (UnaryExpression target op)
  | ObjBooleanClauseList op clauses =>
      BooleanClauseList op <$> mapM (tree_at depth h) clauses
  | ObjBinaryExpression l r op =>
      left_tree ← tree_at depth h l;
      right_tree ← tree_at depth h r;
      Some (BinaryExpression left_tree right_tree op)
  | ObjOther type_name => Some (OtherElement type_name)
  end.
Proof. done. Qed.

Lemma rephrase_as_boolean_unfold depth (h : store) expr :
  rephrase_as_boolean (S depth) h expr =
  o ← h !! expr;
  match o with
  | ObjColumn c =>
      if negb (isinstance_Boolean (type_ c))
      then Some (new_null_test h expr operators_isnot)
      else Some (expr, h)
  | ObjUnaryExpression element op =>
      if is_operator_inv op && isinstance_Column h element
      then Some (new_null_test h element operators_is_)
      else Some (expr, h)
  | ObjAsBoolean element op =>
      if is_operator_inv (Some op) && isinstance_Column h element
      then Some (new_null_test h element operators_is_)
      else Some (expr, h)
  | ObjBooleanClauseList _ clauses =>
      '(clauses', h') ← map_in_store (rephrase_as_boolean depth) h clauses;
      Some (expr, alter (set_clauses clauses') expr h')
  | _ => Some (expr, h)
  end.
Proof. done. Qed.

Lemma clause_lists_at_S depth : ∀ (h : store) a lists,
  clause_lists_at depth h a = Some lists → clause_lists_at (S depth) h a = Some lists.
Proof.
  induction depth as [|depth IH]; intros h a lists; [done|].
  rewrite (clause_lists_at_unfold (S depth)), (clause_lists_at_unfold depth).
  assert (∀ addresses inner,
            mapM (clause_lists_at depth h) addresses = Some inner →
            mapM (clause_lists_at (S depth) h) addresses = Some inner) as HmapM.
  { intros addresses inner. rewrite !mapM_Some. intros HF.
    eapply Forall2_impl; [exact HF|]. apply IH. }
  specialize (IH h). remember (clause_lists_at (S depth) h) as deeper eqn:Hd.
  clear Hd. destruct (h !! a) as [o|]; simpl; [|done].
  destruct o as [v|element| |c|element op|element op|op clauses|l r op|t]; try done.
  - destruct (mapM (clause_lists_at depth h) element) as [inner|] eqn:Hm; simpl; [|done].
    by rewrite (HmapM _ _ Hm).
  - apply IH.
  - destruct (mapM (clause_lists_at depth h) clauses) as [inner|] eqn:Hm; simpl; [|done].
    by rewrite (HmapM _ _ Hm).
  - destruct (clause_lists_at depth h l) as [ll|] eqn:Hl; simpl; [|done].
    rewrite (IH _ _ Hl). simpl.
    destruct (clause_lists_at depth h r) as [lr|] eqn:Hr; simpl; [|done].
    by rewrite (IH _ _ Hr).
Qed.

Lemma map_in_store_mono (f g : store → address → option (address * store)) :
  (∀ h a x, f h a = Some x → g h a = Some x) →
  ∀ addresses h x, map_in_store f h addresses = Some x →
                   map_in_store g h addresses = Some x.
Proof.
  intros Hfg. induction addresses as [|a rest IH]; intros h x; simpl; [done|].
  destruct (f h a) as [[a' h1]|] eqn:Ha; simpl; [|done].
  rewrite (Hfg _ _ _ Ha). simpl.
  destruct (map_in_store f h1 rest) as [[rest' h2]|] eqn:Hr; simpl; [|done].
  by rewrite (IH _ _ Hr).
Qed.

Lemma rephrase_as_boolean_S depth : ∀ (h : store) a x,
  rephrase_as_boolean depth h a = Some x → rephrase_as_boolean (S depth) h a = Some x.
Proof.
  induction depth as [|depth IH]; intros h a x; [done|].
  rewrite (rephrase_as_boolean_unfold (S depth)), (rephrase_as_boolean_unfold depth).
  remember (rephrase_as_boolean (S depth)) as deeper eqn:Hd. clear Hd.
  destruct (h !! a) as [o|]; simpl; [|done].
  destruct o as [v|element| |c|element op|element op|op clauses|l r op|t]; try done.
  destruct (map_in_store (rephrase_as_boolean depth) h clauses) as [[cs h1]|] eqn:Hm;
    simpl; [|done].
  by rewrite (map_in_store_mono _ _ (IH) _ _ _ Hm).
Qed.

(** The tree and the clause lists at [a] are the same in a store that
    differs by the clauses of clause lists elsewhere. *)
Lemma shape_stable depth (h h' : store) :
  rewritten_in_place h h' →
  ∀ a tree lists,
    (∀ x o, x ∈ lists → h !! x = Some o → h' !! x = Some o) →
    tree_at depth h a = Some tree → clause_lists_at depth h a = Some lists →
    tree_at depth h' a = Some tree ∧ clause_lists_at depth h' a = Some lists.
Proof.
  intros Hin. induction depth as [|depth IH]; intros a tree lists Hsame; [done|].
  rewrite !tree_at_unfold, !clause_lists_at_unfold.
  destruct (h !! a) as [o|] eqn:Ho; simpl; [|done].
  assert (∀ addresses trees inner,
            (∀ x o, x ∈ concat inner → h !! x = Some o → h' !! x = Some o) →
            mapM (tree_at depth h) addresses = Some trees →
            mapM (clause_lists_at depth h) addresses = Some inner →
            mapM (tree_at depth h') addresses = Some trees ∧
            mapM (clause_lists_at depth h') addresses = Some inner) as HmapM.
  { induction addresses as [|x xs IHxs]; intros trees inner Hs.
    - simpl. by intros [= <-] [= <-].
    - rewrite !mapM_cons_Some.
      intros (t & ts & Ht & Hts & ->) (l & ls & Hl & Hls & ->). simpl in Hs.
      destruct (IH x t l) as [Ht' Hl']; [|done|done|].
      { intros y o' Hy. apply Hs, elem_of_app. by left. }
      destruct (IHxs ts ls) as [Hts' Hls']; [|done|done|].
      { intros y o' Hy. apply Hs, elem_of_app. by right. }
      split; eauto 7. }
  destruct (Hin _ _ Ho) as (o' & Ho' & Hsbc).
  destruct o as [v|element| |c|element op|element op|op clauses|l r op|t];
    simpl in Hsbc; subst; rewrite ?Ho'; simpl; try done.
  - destruct (mapM (tree_at depth h) element) as [trees|] eqn:Hm; simpl; [|done].
    destruct (mapM (clause_lists_at depth h) element) as [inner|] eqn:Hc; simpl; [|done].
    intros [= <-] [= <-]. destruct (HmapM _ _ _ Hsame Hm Hc) as [-> ->]. done.
  - destruct (h !! element) as [oe|] eqn:He; [|done].
    destruct (Hin _ _ He) as (oe' & -> & Hoe). destruct oe; simpl in Hoe; subst; done.
  - destruct (tree_at depth h element) as [target|] eqn:Ht; simpl; [|done].
    intros [= <-] Hc. destruct (IH _ _ _ Hsame Ht Hc) as [-> ->]. done.
  - destruct Hsbc as (clauses' & -> & Hlen).
    destruct (mapM (tree_at depth h) clauses) as [trees|] eqn:Hm; simpl; [|done].
    destruct (mapM (clause_lists_at depth h) clauses) as [inner|] eqn:Hc; simpl; [|done].
    intros [= <-] [= <-].
    assert (h' !! a = Some (ObjBooleanClauseList op clauses)) as Ha'.
    { eapply Hsame; [|done]. apply elem_of_cons. by left. }
    rewrite Ho' in Ha'. injection Ha' as ->. simpl.
    destruct (HmapM _ _ _ (λ x o Hx, Hsame x o (proj2 (elem_of_cons _ _ _) (or_intror Hx)))
                Hm Hc) as [-> ->].
    done.
  - destruct (tree_at depth h l) as [lt|] eqn:Hl; simpl; [|done].
    destruct (tree_at depth h r) as [rt|] eqn:Hr; simpl; [|done].
    destruct (clause_lists_at depth h l) as [ll|] eqn:Hcl; simpl; [|done].
    destruct (clause_lists_at depth h r) as [lr|] eqn:Hcr; simpl; [|done].
    intros [= <-] [= <-].
    destruct (IH l lt ll) as [-> ->]; [|done|done|].
    { intros x o Hx. apply Hsame, elem_of_app. by left. }
    destruct (IH r rt lr) as [-> ->]; [|done|done|].
    { intros x o Hx. apply Hsame, elem_of_app. by right. }
    done.
Qed.

Lemma settled_unfold depth (h : store) a :
  settled (S depth) h a =
  match h !! a with
  | Some (ObjColumn c) => isinstance_Boolean (type_ c) = true
  | Some (ObjUnaryExpression element op) =>
      is_operator_inv op && isinstance_Column h element = false
  | Some (ObjAsBoolean element op) =>
      is_operator_inv (Some op) && isinstance_Column h element = false
  | Some (ObjBooleanClauseList _ clauses) => Forall (settled depth h) clauses
  | Some _ => True
  | None => False
  end.
Proof. done. Qed.

Lemma settled_S depth : ∀ (h : store) a, settled depth h a → settled (S depth) h a.
Proof.
  induction depth as [|depth IH]; intros h a; [done|].
  rewrite (settled_unfold (S depth)), (settled_unfold depth).
  destruct (h !! a) as [o|]; [|done].
  destruct o; try done.
  intros HF. eapply Forall_impl; [exact HF|]. intros x. apply IH.
Qed.

Lemma map_in_store_settled (f : store → address → option (address * store))
    (h : store) addresses :
  Forall (λ a, f h a = Some (a, h)) addresses →
  map_in_store f h addresses = Some (addresses, h).
Proof.
  induction 1 as [|a rest Ha _ IH]; simpl; [done|].
  rewrite Ha. simpl. by rewrite IH.
Qed.

(** On a settled expression [rephrase_as_boolean] changes nothing. *)
Lemma settled_rephrase depth : ∀ (h : store) a,
  settled depth h a → rephrase_as_boolean depth h a = Some (a, h).
Proof.
  induction depth as [|depth IH]; intros h a; [done|].
  rewrite settled_unfold, rephrase_as_boolean_unfold.
  destruct (h !! a) as [o|] eqn:Ho; [|done]. cbn [mbind option_bind].
  destruct o as [v|element| |c|element op|element op|op clauses|l r op|t]; try done.
  - by intros ->.
  - by intros ->.
  - by intros ->.
  - intros Hs. rewrite (map_in_store_settled _ h clauses).
    + cbn [mbind option_bind]. f_equal. f_equal.
      apply alter_id. intros o Ho'. rewrite Ho in Ho'. by injection Ho' as <-.
    + eapply Forall_impl; [exact Hs|]. intros x. apply IH.
Qed.

(** A settled expression stays settled in a store that differs by the
    clauses of clause lists elsewhere. *)
Lemma settled_stable depth (h h' : store) :
  rewritten_in_place h h' →
  ∀ a tree lists,
    (∀ x o, x ∈ lists → h !! x = Some o → h' !! x = Some o) →
    tree_at depth h a = Some tree → clause_lists_at depth h a = Some lists →
    settled depth h a → settled depth h' a.
Proof.
  intros Hin. induction depth as [|depth IH]; intros a tree lists Hsame; [done|].
  rewrite !tree_at_unfold, !clause_lists_at_unfold, !settled_unfold.
  destruct (h !! a) as [o|] eqn:Ho; [|done]. cbn [mbind option_bind].
  destruct (Hin _ _ Ho) as (o' & Ho' & Hsbc).
  assert (∀ element, is_Some (h !! element) →
            isinstance_Column h' element = isinstance_Column h element) as Hcol.
  { intros element [oe He]. unfold isinstance_Column. rewrite He.
    destruct (Hin _ _ He) as (oe' & -> & Hoe). destruct oe; simpl in Hoe; subst; try done.
    by destruct Hoe as (? & -> & _). }
  destruct o as [v|element| |c|element op|element op|op clauses|l r op|t];
    simpl in Hsbc; subst; rewrite ?Ho'; try done.
  - destruct (h !! element) as [oe|] eqn:He; [|done].
    intros _ _. rewrite Hcol; [|by eexists]. unfold isinstance_Column. by rewrite He.
  - intros Ht Hl. rewrite Hcol; [done|].
    destruct depth as [|depth']; [done|]. rewrite clause_lists_at_unfold in Hl.
    destruct (h !! element); [by eexists|done].
  - destruct Hsbc as (clauses' & -> & Hlen).
    destruct (mapM (tree_at depth h) clauses) as [trees|] eqn:Hm; [|done].
    destruct (mapM (clause_lists_at depth h) clauses) as [inner|] eqn:Hc; [|done].
    simpl. intros _ [= <-].
    assert (h' !! a = Some (ObjBooleanClauseList op clauses)) as Ha'.
    { eapply Hsame; [|done]. apply elem_of_cons. by left. }
    rewrite Ho' in Ha'. injection Ha' as ->.
    assert (∀ x o, x ∈ concat inner → h !! x = Some o → h' !! x = Some o) as Hsame'.
    { intros x o Hx. apply Hsame, elem_of_cons. by right. }
    clear Ho Ho' Hlen Hsame. revert trees inner Hm Hc Hsame'.
    induction clauses as [|x xs IHxs]; intros trees inner Hm Hc Hsame HF; [done|].
    apply mapM_cons_Some in Hm as (t & ts & Ht & Hts & ->).
    apply mapM_cons_Some in Hc as (l & ls & Hl & Hls & ->). simpl in Hsame.
    apply Forall_cons in HF as [Hx Hxs]. constructor.
    + eapply IH; [|exact Ht|exact Hl|exact Hx].
      intros y o Hy. apply Hsame, elem_of_app. by left.
    + eapply IHxs; [exact Hts|exact Hls| |exact Hxs].
      intros y o Hy. apply Hsame, elem_of_app. by right.
Qed.

Lemma settled_each_stable depth (h h' : store) :
  rewritten_in_place h h' →
  ∀ addresses trees inner,
    (∀ x o, x ∈ concat inner → h !! x = Some o → h' !! x = Some o) →
    mapM (tree_at depth h) addresses = Some trees →
    mapM (clause_lists_at depth h) addresses = Some inner →
    Forall (settled depth h) addresses → Forall (settled depth h') addresses.
Proof.
  intros Hin. induction addresses as [|x xs IHxs]; intros trees inner Hsame Hm Hc HF;
    [done|].
  apply mapM_cons_Some in Hm as (t & ts & Ht & Hts & ->).
  apply mapM_cons_Some in Hc as (l & ls & Hl & Hls & ->). simpl in Hsame.
  apply Forall_cons in HF as [Hx Hxs]. constructor.
  - eapply (settled_stable depth h h' Hin); [|exact Ht|exact Hl|exact Hx].
    intros y o Hy. apply Hsame, elem_of_app. by left.
  - eapply IHxs; [|exact Hts|exact Hls|exact Hxs].
    intros y o Hy. apply Hsame, elem_of_app. by right.
Qed.

Lemma shapes_stable depth (h h' : store) :
  rewritten_in_place h h' →
  ∀ addresses trees inner,
    (∀ x o, x ∈ concat inner → h !! x = Some o → h' !! x = Some o) →
    mapM (tree_at depth h) addresses = Some trees →
    mapM (clause_lists_at depth h) addresses = Some inner →
    mapM (tree_at depth h') addresses = Some trees ∧
    mapM (clause_lists_at depth h') addresses = Some inner.
Proof.
  intros Hin. induction addresses as [|x xs IHxs]; intros trees inner Hs.
  - simpl. by intros [= <-] [= <-].
  - rewrite !mapM_cons_Some.
    intros (t & ts & Ht & Hts & ->) (l & ls & Hl & Hls & ->). simpl in Hs.
    destruct (shape_stable depth h h' Hin x t l) as [Ht' Hl']; [|done|done|].
    { intros y o' Hy. apply Hs, elem_of_app. by left. }
    destruct (IHxs ts ls) as [Hts' Hls']; [|done|done|].
    { intros y o' Hy. apply Hs, elem_of_app. by right. }
    split; eauto 7.
Qed.

Lemma tree_at_is_Column depth (h : store) a tree :
  tree_at depth h a = Some tree → is_Column tree = isinstance_Column h a.
Proof.
  destruct depth as [|depth]; [done|]. rewrite tree_at_unfold.
  unfold isinstance_Column. destruct (h !! a) as [o|]; [|done].
  cbn [mbind option_bind].
  destruct o as [v|element| |c|element op|element op|op clauses|l r op|t];
    try (by intros [= <-]).
  - destruct (mapM _ _); simpl; [|done]. by intros [= <-].
  - destruct (h !! element) as [[]|]; try done. by intros [= <-].
  - destruct (tree_at depth h element); simpl; [|done]. by intros [= <-].
  - destruct (mapM _ _); simpl; [|done]. by intros [= <-].
  - destruct (tree_at depth h l); simpl; [|done].
    destruct (tree_at depth h r); simpl; [|done]. by intros [= <-].
Qed.

(** The tree of a settled expression is one that the rewrite, read on
    trees, leaves as it is. *)
Lemma settled_rephrased_tree depth : ∀ (h : store) a tree,
  tree_at depth h a = Some tree → settled depth h a → rephrased_tree tree = tree.
Proof.
  induction depth as [|depth IH]; intros h a tree; [done|].
  rewrite tree_at_unfold, settled_unfold.
  destruct (h !! a) as [o|] eqn:Ho; [|done]. cbn [mbind option_bind].
  destruct o as [v|element| |c|element op|element op|op clauses|l r op|t];
    try (by intros [= <-]).
  - destruct (mapM _ _); simpl; [|done]. by intros [= <-].
  - intros [= <-] Hb. simpl. by rewrite Hb.
  - unfold isinstance_Column.
    destruct (h !! element) as [[| | |c| | | | |]|] eqn:He; try done.
    intros [= <-]. rewrite andb_true_r. intros Hinv.
    cbn [rephrased_tree]. by rewrite Hinv.
  - destruct (tree_at depth h element) as [target|] eqn:Ht; simpl; [|done].
    intros [= <-]. rewrite <- (tree_at_is_Column _ _ _ _ Ht). intros Hif.
    cbn [rephrased_tree]. by rewrite Hif.
  - destruct (mapM (tree_at depth h) clauses) as [trees|] eqn:Hm; simpl; [|done].
    intros [= <-] HF. simpl. f_equal. clear Ho.
    apply mapM_Some in Hm. induction Hm as [|x t xs ts Hx _ IHxs]; [done|].
    apply Forall_cons in HF as [Hsx Hsxs]. simpl.
    by rewrite (IH _ _ _ Hx Hsx), (IHxs Hsxs).
  - destruct (tree_at depth h l); simpl; [|done].
    destruct (tree_at depth h r); simpl; [|done]. by intros [= <-].
Qed.

(** What [rephrase_as_boolean] does to an expression that walks through no
    clause list twice: it returns an expression that serializes under
    [force_bool] as the given one does, walks through the same clause lists
    and is settled, and leaves every object outside these clause lists as
    it was; the tree of what it returns is the rewrite, read on trees, of
    the tree it is given. *)
Definition rephrases_well (depth : nat) : Prop :=
  ∀ (h : store) a tree lists,
    tree_at depth h a = Some tree → clause_lists_at depth h a = Some lists →
    NoDup lists →
    ∃ result h' tree',
      rephrase_as_boolean depth h a = Some (result, h') ∧
      tree_at (S depth) h' result = Some tree' ∧
      clause_lists_at (S depth) h' result = Some lists ∧
      (∀ symbols, _serialize tree true = Ok symbols → _serialize tree' true = Ok symbols) ∧
      (∀ x o, h !! x = Some o → x ∉ lists → h' !! x = Some o) ∧
      (∀ o, h !! a = Some o → is_clause_list o = true → result = a) ∧
      settled (S depth) h' result ∧
      tree' = rephrased_tree tree.

Lemma rephrase_each_well depth :
  rephrases_well depth →
  ∀ clauses (h : store) trees inner,
    mapM (tree_at depth h) clauses = Some trees →
    mapM (clause_lists_at depth h) clauses = Some inner →
    NoDup (concat inner) →
    ∃ results h' trees',
      map_in_store (rephrase_as_boolean depth) h clauses = Some (results, h') ∧
      mapM (tree_at (S depth) h') results = Some trees' ∧
      mapM (clause_lists_at (S depth) h') results = Some inner ∧
      Forall2 (λ tree tree', ∀ symbols, _serialize tree true = Ok symbols →
                                        _serialize tree' true = Ok symbols) trees trees' ∧
      (∀ x o, h !! x = Some o → x ∉ concat inner → h' !! x = Some o) ∧
      Forall (settled (S depth) h') results ∧
      trees' = map rephrased_tree trees.
Proof.
  intros Hwell. induction clauses as [|a rest IH]; intros h trees inner.
  - simpl. intros [= <-] [= <-] _. exists [], h, []. simpl. repeat split; eauto.
  - rewrite !mapM_cons_Some.
    intros (t & ts & Ht & Hts & ->) (l & ls & Hl & Hls & ->). simpl.
    intros (Hl_nodup & Hdisjoint & Hls_nodup)%NoDup_app.
    destruct (Hwell h a t l Ht Hl Hl_nodup)
      as (r & h1 & t' & Hr & Ht' & Hl' & Hser & Hframe & _ & Hset & Hrt).
    pose proof (rephrase_as_boolean_in_place _ _ _ _ _ Hr) as Hin1.
    destruct (shapes_stable depth h h1 Hin1 rest ts ls) as [Hts1 Hls1]; [|done|done|].
    { intros x o Hx Ho. apply Hframe; [done|]. intros Hxl. by apply (Hdisjoint x). }
    destruct (IH h1 ts ls Hts1 Hls1 Hls_nodup)
      as (rs & h' & ts' & Hmap & Hts' & Hls' & HF & Hframe_rest & Hsets & Hrts).
    assert (rewritten_in_place h1 h') as Hin_rest.
    { eapply (map_in_store_in_place (rephrase_as_boolean depth)); [|exact Hmap].
      intros ????. apply rephrase_as_boolean_in_place. }
    destruct (shape_stable (S depth) h1 h' Hin_rest r t' l) as [Ht'' Hl'']; [|done|done|].
    { intros x o Hx Ho. apply Hframe_rest; [done|]. by apply Hdisjoint. }
    exists (r :: rs), h', (t' :: ts').
    split; [|split; [|split; [|split; [|split; [|split]]]]].
    + simpl. rewrite Hr. simpl. rewrite Hmap. done.
    + apply mapM_cons_Some. eauto 7.
    + apply mapM_cons_Some. eauto 7.
    + by constructor.
    + intros x o Ho [Hx1 Hx2]%not_elem_of_app. eauto.
    + constructor; [|done].
      eapply (settled_stable (S depth) h1 h' Hin_rest); [|exact Ht'|exact Hl'|exact Hset].
      intros x o Hx Ho. apply Hframe_rest; [done|]. by apply Hdisjoint.
    + simpl. by rewrite Hrt, Hrts.
Qed.

Lemma serialize_each_forced trees trees' :
  Forall2 (λ tree tree', ∀ symbols, _serialize tree true = Ok symbols →
                                    _serialize tree' true = Ok symbols) trees trees' →
  ∀ symbols,
    serialize_each (λ clause, _serialize clause true) trees = Ok symbols →
    serialize_each (λ clause, _serialize clause true) trees' = Ok symbols.
Proof.
  induction 1 as [|t t' ts ts' Ht _ IH]; simpl; intros symbols; [done|].
  destruct (_serialize t true) as [s|] eqn:Hs; simpl; [|done].
  rewrite (Ht _ eq_refl). simpl.
  destruct (serialize_each _ ts) as [more|] eqn:Hm; simpl; [|done].
  by rewrite (IH _ eq_refl).
Qed.

Lemma unchanged_well depth (h : store) a tree lists :
  tree_at depth h a = Some tree → clause_lists_at depth h a = Some lists →
  settled depth h a →
  ∃ result h' tree',
    Some (a, h) = Some (result, h') ∧
    tree_at (S depth) h' result = Some tree' ∧
    clause_lists_at (S depth) h' result = Some lists ∧
    (∀ symbols, _serialize tree true = Ok symbols → _serialize tree' true = Ok symbols) ∧
    (∀ x o, h !! x = Some o → x ∉ lists → h' !! x = Some o) ∧
    result = a ∧
    settled (S depth) h' result ∧
    tree' = rephrased_tree tree.
Proof.
  intros Ht Hl Hset. exists a, h, tree. split; [done|].
  split; [by apply tree_at_S|]. split; [by apply clause_lists_at_S|].
  split; [eauto|]. split; [eauto|]. split; [done|].
  split; [by apply settled_S|]. symmetry. by eapply settled_rephrased_tree.
Qed.

Ltac unchanged Ht Hl Ho :=
  let r := fresh "r" in
  let h1 := fresh "h" in
  let t := fresh "t" in
  let Hset := fresh "Hset" in
  match type of Ht with
  | tree_at (S ?d) ?h ?a = _ =>
      assert (settled (S d) h a) as Hset
        by (rewrite settled_unfold, Ho; first [done | by apply negb_false_iff])
  end;
  destruct (unchanged_well _ _ _ _ _ Ht Hl Hset)
    as (r & h1 & t & ? & ? & ? & ? & ? & ? & ? & ?);
  exists r, h1, t; repeat split; eauto.

Lemma null_test_well depth (h : store) column c op result h' :
  h !! column = Some (ObjColumn c) →
  new_null_test h column op = (result, h') →
  tree_at (S (S depth)) h' result = Some (BinaryExpression (Column_ c) Null op) ∧
  clause_lists_at (S (S depth)) h' result = Some [] ∧
  h ⊆ h' ∧
  settled (S (S depth)) h' result.
Proof.
  intros Hc (Hr & Hsub & null & Hn & Hnull & Hres)%new_null_test_spec.
  pose proof (lookup_weaken _ _ _ _ Hc Hsub) as Hc'.
  split; [|split; [|split; [done|by rewrite settled_unfold, Hres]]].
  - rewrite tree_at_unfold, Hres. cbn [mbind option_bind].
    rewrite !(tree_at_unfold depth), Hc', Hnull. done.
  - rewrite clause_lists_at_unfold, Hres. cbn [mbind option_bind].
    rewrite !(clause_lists_at_unfold depth), Hc', Hnull. done.
Qed.

Lemma serialize_null_test_forced c op symbols :
  _serialize (BinaryExpression (Column_ c) Null op) false = Ok symbols →
  _serialize (BinaryExpression (Column_ c) Null op) true = Ok symbols.
Proof. by rewrite !serialize_BinaryExpression. Qed.

Lemma rephrase_as_boolean_well depth : rephrases_well depth.
Proof.
  induction depth as [|depth IH]; intros h a tree lists Ht Hl Hnd; [done|].
  pose proof Ht as Ht0. pose proof Hl as Hl0.
  rewrite tree_at_unfold in Ht. rewrite clause_lists_at_unfold in Hl.
  rewrite rephrase_as_boolean_unfold.
  destruct (h !! a) as [o|] eqn:Ho; [|done].
  cbn [mbind option_bind] in Ht, Hl |- *.
  destruct o as [v|element| |c|element op|element op|op clauses|l r op|t];
    try (by unchanged Ht0 Hl0 Ho).
  - (* a column *)
    destruct (negb (isinstance_Boolean (type_ c))) eqn:Hbool; [|by unchanged Ht0 Hl0 Ho].
    injection Ht as <-. injection Hl as <-.
    destruct (new_null_test h a operators_isnot) as [result h'] eqn:Hnew.
    destruct (null_test_well depth _ _ _ _ _ _ Ho Hnew) as (Ht' & Hl' & Hsub & Hset').
    exists result, h', (isnot_None c). split; [done|]. split; [exact Ht'|]. split; [exact Hl'|].
    split; [|split; [|split; [by intros ? [= <-]|split; [exact Hset'|]]]].
    + intros symbols. rewrite serialize_Column, Hbool. simpl.
      apply serialize_null_test_forced.
    + intros x o Hx _. by eapply lookup_weaken.
    + simpl. by rewrite Hbool.
  - (* an AsBoolean *)
    destruct (is_operator_inv (Some op) && isinstance_Column h element) eqn:Hif;
      [|by unchanged Ht0 Hl0 Ho].
    apply andb_true_iff in Hif as [Hinv Hcol].
    unfold isinstance_Column in Hcol.
    destruct (h !! element) as [[| | |c| | | | |]|] eqn:He; try done.
    injection Ht as <-. injection Hl as <-.
    destruct (new_null_test h element operators_is_) as [result h'] eqn:Hnew.
    destruct (null_test_well depth _ _ _ _ _ _ He Hnew) as (Ht' & Hl' & Hsub & Hset').
    exists result, h', (is_None c). split; [done|]. split; [exact Ht'|]. split; [exact Hl'|].
    split; [|split; [|split; [by intros ? [= <-]|split; [exact Hset'|]]]].
    + intros symbols. rewrite serialize_AsBoolean. by destruct op.
    + intros x o Hx _. by eapply lookup_weaken.
    + cbn [rephrased_tree]. by rewrite Hinv.
  - (* a unary expression *)
    destruct (is_operator_inv op && isinstance_Column h element) eqn:Hif.
    + apply andb_true_iff in Hif as [Hinv Hcol].
      unfold isinstance_Column in Hcol.
      destruct (h !! element) as [[| | |c| | | | |]|] eqn:He; try done.
      destruct depth as [|depth']; [done|].
      rewrite tree_at_unfold, He in Ht. rewrite clause_lists_at_unfold, He in Hl.
      simpl in Ht, Hl. injection Ht as <-. injection Hl as <-.
      destruct (new_null_test h element operators_is_) as [result h'] eqn:Hnew.
      destruct (null_test_well (S depth') _ _ _ _ _ _ He Hnew) as (Ht' & Hl' & Hsub & Hset').
      exists result, h', (is_None c). split; [done|]. split; [exact Ht'|]. split; [exact Hl'|].
      split; [|split; [|split; [by intros ? [= <-]|split; [exact Hset'|]]]].
      * intros symbols. rewrite serialize_UnaryExpression, Hinv. simpl.
        apply serialize_null_test_forced.
      * intros x o Hx _. by eapply lookup_weaken.
      * cbn [rephrased_tree]. by rewrite Hinv.
    + by unchanged Ht0 Hl0 Ho.
  - (* a clause list *)
    destruct (mapM (tree_at depth h) clauses) as [trees|] eqn:Hts; [|done].
    destruct (mapM (clause_lists_at depth h) clauses) as [inner|] eqn:Hls; [|done].
    simpl in Ht, Hl. injection Ht as <-. injection Hl as <-.
    apply NoDup_cons in Hnd as [Ha Hnd].
    destruct (rephrase_each_well depth IH clauses h trees inner Hts Hls Hnd)
      as (rs & h1 & trees' & Hmap & Hts' & Hls' & HF & Hframe & Hsets & Hrts).
    rewrite Hmap. cbn [mbind option_bind].
    pose proof (Hframe _ _ Ho Ha) as Ho1.
    assert (length rs = length clauses) as Hlen.
    { eapply (map_in_store_in_place (rephrase_as_boolean depth)); [|exact Hmap].
      intros ????. apply rephrase_as_boolean_in_place. }
    assert (rewritten_in_place h1 (alter (set_clauses rs) a h1)) as Hin.
    { intros x o Hx. destruct (decide (x = a)) as [->|Hne].
      - rewrite lookup_alter_eq, Ho1. simpl. eexists. split; [done|].
        rewrite Ho1 in Hx. injection Hx as <-. simpl. eauto.
      - rewrite lookup_alter_ne by done. exists o. split; [done|].
        apply same_but_clauses_refl. }
    destruct (shapes_stable (S depth) h1 _ Hin rs trees' inner) as [Hts'' Hls''];
      [|done|done|].
    { intros x o Hx Hox. rewrite lookup_alter_ne; [done|]. by intros <-. }
    exists a, (alter (set_clauses rs) a h1), (BooleanClauseList op trees').
    split; [done|]. split; [|split; [|split; [|split; [|split; [|split]]]]].
    + rewrite tree_at_unfold, lookup_alter_eq, Ho1. cbn -[tree_at mapM].
      by rewrite Hts''.
    + rewrite clause_lists_at_unfold, lookup_alter_eq, Ho1. cbn -[clause_lists_at mapM].
      by rewrite Hls''.
    + intros symbols. rewrite !serialize_BooleanClauseList.
      destruct (serialize_each _ trees) as [s|] eqn:Hs; simpl; [|done].
      rewrite (serialize_each_forced _ _ HF _ Hs). simpl.
      by rewrite (Forall2_length _ _ _ HF).
    + intros x o Hx [Hxa Hxi]%not_elem_of_cons.
      rewrite lookup_alter_ne by done. by apply Hframe.
    + done.
    + rewrite settled_unfold, lookup_alter_eq, Ho1. cbn -[settled].
      eapply (settled_each_stable (S depth) h1 _ Hin); [|exact Hts'|exact Hls'|exact Hsets].
      intros x o Hx Hox. rewrite lookup_alter_ne; [done|]. by intros <-.
    + simpl. by rewrite Hrts.
Qed.

Lemma tree_at_BooleanClauseList depth (h : store) a op trees :
  tree_at depth h a = Some (BooleanClauseList op trees) →
  ∃ clauses, h !! a = Some (ObjBooleanClauseList op clauses).
Proof.
  destruct depth as [|depth]; [done|]. rewrite tree_at_unfold.
  destruct (h !! a) as [o|]; [|done]. cbn [mbind option_bind].
  destruct o as [v|element| |c|element op'|element op'|op' clauses|l r op'|t];
    try done.
  - by destruct (mapM _ _).
  - by destruct (h !! element) as [[]|].
  - by destruct (tree_at depth h element).
  - destruct (mapM _ _); simpl; [|done]. intros [= -> _]. eauto.
  - destruct (tree_at depth h l); simpl; [|done].
    by destruct (tree_at depth h r).
Qed.

(** C5, as stated, fails: compiling [and_(a, b)] with [force_bool] leaves
    the caller's clause list, the same object, with its clauses rewritten to
    [a IS NOT NULL] and [b IS NOT NULL]. *)
Lemma C5_clause_list_rewritten_in_place :
  tree_at 3 store_and_a_b 3%positive
    = Some (BooleanClauseList operator_and_ [Column_ column_a; Column_ column_b]) ∧
  Expression__init__ 3 store_and_a_b 3%positive true
    = Some (store_and_a_b_rephrased,
            Ok (mkExpression 3%positive
                  [mkSymbol (PyValue VNone) None; mkSymbol (PyColumn column_a) None;
                   mkSymbol (PyCallable operator_ne) (Some 2%nat);
                   mkSymbol (PyValue VNone) None; mkSymbol (PyColumn column_b) None;
                   mkSymbol (PyCallable operator_ne) (Some 2%nat);
                   mkSymbol (PyCallable operator_and_) (Some 2%nat)])) ∧
  tree_at 3 store_and_a_b_rephrased 3%positive
    = Some (BooleanClauseList operator_and_ [isnot_None column_a; isnot_None column_b]) ∧
  tree_at 3 store_and_a_b_rephrased 3%positive ≠ tree_at 3 store_and_a_b 3%positive.
Proof. repeat split; try reflexivity. vm_compute. discriminate. Qed.

(** C5, amended: compiling with [force_bool] keeps as [sql] what
    [rephrase_as_boolean] returns.  That builds new objects and assigns to
    the [clauses] of clause lists, which keep their operator and their
    number of clauses; it changes no other object.  So a tree whose root is
    not a clause list is left as it was, while a root that is a clause list
    is itself the [sql], not a copy.  For an expression that walks through
    no clause list twice, compiling ends, and the tree read afterwards from
    what is kept is the rewrite of the tree given: a clause list of the
    caller holds, in place of its clauses, the rewritten clauses. *)
Theorem C5_compile_rewrites_clause_lists_in_place (depth : nat) (h : store)
    (expression : address) :
  (∀ h' outcome,
     Expression__init__ depth h expression true = Some (h', outcome) →
     (∃ result,
        rephrase_as_boolean depth h expression = Some (result, h') ∧
        ∀ e, outcome = Ok e → sql e = result) ∧
     rewritten_in_place h h' ∧
     (∀ o, h !! expression = Some o → is_clause_list o = false →
        h ⊆ h' ∧
        ∀ d tree, tree_at d h expression = Some tree →
                  tree_at d h' expression = Some tree) ∧
     (∀ o e, h !! expression = Some o → is_clause_list o = true →
        outcome = Ok e → sql e = expression)) ∧
  (∀ tree lists,
     tree_at depth h expression = Some tree →
     clause_lists_at depth h expression = Some lists →
     NoDup lists →
     ∃ h' result outcome,
       Expression__init__ (S depth) h expression true = Some (h', outcome) ∧
       rephrase_as_boolean (S depth) h expression = Some (result, h') ∧
       (∀ e, outcome = Ok e → sql e = result) ∧
       tree_at (S depth) h' result = Some (rephrased_tree tree) ∧
       (∀ x o, h !! x = Some o → x ∉ lists → h' !! x = Some o) ∧
       (∀ op trees, tree = BooleanClauseList op trees →
          result = expression ∧
          tree_at (S depth) h' expression
            = Some (BooleanClauseList op (map rephrased_tree trees)))).
Proof.
  split.
  - intros h' outcome. unfold Expression__init__.
    destruct (rephrase_as_boolean depth h expression) as [[result h1]|] eqn:Hr;
      simpl; [|done].
    destruct (tree_at depth h1 expression) as [tree|]; simpl; [|done].
    intros [= <- <-].
    assert (∀ e, (symbols ← _serialize tree true; Ok (mkExpression result symbols)) = Ok e →
                 sql e = result) as Hsql.
    { intros e. destruct (_serialize tree true); simpl; [|done]. by intros [= <-]. }
    split; [eauto|]. split; [|split].
    + by eapply rephrase_as_boolean_in_place.
    + intros o Ho Hcl.
      assert (h ⊆ h1) as Hsub by (by eapply rephrase_as_boolean_extends).
      split; [done|]. intros d t. by apply tree_at_weaken.
    + intros o e Ho Hcl He. rewrite (Hsql _ He).
      destruct depth as [|depth]; simpl in Hr; [done|].
      rewrite Ho in Hr. simpl in Hr. destruct o; try done.
      destruct (map_in_store _ _ _) as [[]|]; simpl in Hr; [|done].
      by injection Hr as <- _.
  - intros tree lists Ht Hl Hnd.
    destruct (rephrase_as_boolean_well depth h expression tree lists Ht Hl Hnd)
      as (r & h' & t' & Hr & Ht' & Hl' & Hser & Hframe & Hroot & _ & ->).
    apply rephrase_as_boolean_S in Hr.
    assert (∃ kept, tree_at (S depth) h' expression = Some kept) as [kept Hkept].
    { destruct depth as [|depth]; [done|].
      pose proof Ht as Ho. rewrite tree_at_unfold in Ho.
      destruct (h !! expression) as [o|] eqn:Hlookup; [|done].
      destruct (is_clause_list o) eqn:Hcl.
      - rewrite <- (Hroot o eq_refl Hcl). eauto.
      - exists tree. apply tree_at_S. eapply tree_at_weaken; [|exact Ht].
        eapply rephrase_as_boolean_extends; [exact Hr|exact Hlookup|exact Hcl]. }
    exists h', r, (symbols ← _serialize kept true; Ok (mkExpression r symbols)).
    split; [|split; [done|split; [|split; [done|split; [done|]]]]].
    + unfold Expression__init__. rewrite Hr. cbn [mbind option_bind].
      rewrite Hkept. done.
    + intros e. destruct (_serialize kept true); simpl; [|done]. by intros [= <-].
    + intros op trees ->.
      destruct (tree_at_BooleanClauseList _ _ _ _ _ Ht) as (clauses & Ho).
      rewrite <- (Hroot _ Ho eq_refl). split; [done|exact Ht'].
Qed.

Lemma C5_compile_rewrites_clause_lists_in_place_witness :
  rewritten_in_place store_and_a_b store_and_a_b_rephrased ∧
  ∃ h' result outcome,
    Expression__init__ 3 store_and_a_b 3%positive true = Some (h', outcome) ∧
    result = 3%positive ∧
    tree_at 3 h' 3%positive
      = Some (BooleanClauseList operator_and_ [isnot_None column_a; isnot_None column_b]).
Proof.
  split.
  - destruct (proj1 (C5_compile_rewrites_clause_lists_in_place 3 store_and_a_b 3%positive)
                store_and_a_b_rephrased
                (Ok (mkExpression 3%positive
                   [mkSymbol (PyValue VNone) None; mkSymbol (PyColumn column_a) None;
                    mkSymbol (PyCallable operator_ne) (Some 2%nat);
                    mkSymbol (PyValue VNone) None; mkSymbol (PyColumn column_b) None;
                    mkSymbol (PyCallable operator_ne) (Some 2%nat);
                    mkSymbol (PyCallable operator_and_) (Some 2%nat)])))
      as (_ & H & _); [reflexivity|exact H].
  - destruct (proj2 (C5_compile_rewrites_clause_lists_in_place 2 store_and_a_b 3%positive)
                (BooleanClauseList operator_and_ [Column_ column_a; Column_ column_b])
                [3%positive])
      as (h' & result & outcome & Hinit & _ & _ & _ & _ & Hroot);
      [reflexivity|reflexivity|apply NoDup_singleton|].
    exists h', result, outcome. split; [exact Hinit|].
    exact (Hroot operator_and_ [Column_ column_a; Column_ column_b] eq_refl).
Defined.

(** [Expression(expression, force_bool)] on an expression that walks through
    no clause list twice: when the tree given serializes, the expression
    built has the symbols of that tree, although under [force_bool] they are
    read off the tree after [rephrase_as_boolean] has rewritten it; the
    [sql] kept then serializes under [force_bool] to the same symbols, and
    without [force_bool] it is the expression given, in an unchanged
    store.  The rewritten tree is at most one level deeper than the given
    one, hence the bound [S depth]. *)
Theorem Expression__init__serializes_the_given_tree (depth : nat) (h : store)
    (expression : address) (force_bool : bool) (tree : ClauseElement)
    (lists : list address) (symbols : list Symbol) :
  tree_at depth h expression = Some tree →
  clause_lists_at depth h expression = Some lists →
  NoDup lists →
  _serialize tree force_bool = Ok symbols →
  ∃ h' sql,
    Expression__init__ (S depth) h expression force_bool
      = Some (h', Ok (mkExpression sql symbols)) ∧
    if force_bool
    then ∃ sql_tree, tree_at (S depth) h' sql = Some sql_tree ∧
                     _serialize sql_tree true = Ok symbols
    else h' = h ∧ sql = expression.
Proof.
  intros Ht Hl Hnd Hs. unfold Expression__init__. destruct force_bool.
  - destruct (rephrase_as_boolean_well depth h expression tree lists Ht Hl Hnd)
      as (r & h' & t' & Hr & Ht' & Hl' & Hser & Hframe & Hroot & _).
    rewrite (rephrase_as_boolean_S _ _ _ _ Hr). cbn [mbind option_bind].
    exists h', r.
    assert (∃ tree', tree_at (S depth) h' expression = Some tree' ∧
                     _serialize tree' true = Ok symbols) as (t'' & Ht'' & Hs'').
    { destruct depth as [|depth]; [done|].
      pose proof Ht as Ho. rewrite tree_at_unfold in Ho.
      destruct (h !! expression) as [o|] eqn:Hlookup; [|done].
      destruct (is_clause_list o) eqn:Hcl.
      - rewrite <- (Hroot o eq_refl Hcl). eauto.
      - exists tree. split; [|done].
        apply tree_at_S. eapply tree_at_weaken; [|exact Ht].
        by eapply rephrase_as_boolean_extends. }
    rewrite Ht''. cbn [mbind option_bind]. rewrite Hs''. simpl. eauto.
  - cbn [mbind option_bind]. rewrite (tree_at_S _ _ _ _ Ht).
    cbn [mbind option_bind]. rewrite Hs. simpl. eauto.
Qed.

Lemma Expression__init__serializes_the_given_tree_witness :
  ∃ h' sql,
    Expression__init__ 3 store_and_a 2%positive true
      = Some (h', Ok (mkExpression sql
                        [mkSymbol (PyValue VNone) None; mkSymbol (PyColumn column_a) None;
                         mkSymbol (PyCallable operator_ne) (Some 2%nat);
                         mkSymbol (PyCallable operator_and_) (Some 1%nat)])) ∧
    ∃ sql_tree, tree_at 3 h' sql = Some sql_tree ∧
                _serialize sql_tree true
                  = Ok [mkSymbol (PyValue VNone) None; mkSymbol (PyColumn column_a) None;
                        mkSymbol (PyCallable operator_ne) (Some 2%nat);
                        mkSymbol (PyCallable operator_and_) (Some 1%nat)].
Proof.
  apply (Expression__init__serializes_the_given_tree 2 store_and_a 2%positive true
           (BooleanClauseList operator_and_ [Column_ column_a]) [2%positive]
           [mkSymbol (PyValue VNone) None; mkSymbol (PyColumn column_a) None;
            mkSymbol (PyCallable operator_ne) (Some 2%nat);
            mkSymbol (PyCallable operator_and_) (Some 1%nat)]
           eq_refl eq_refl).
  - apply NoDup_singleton.
  - reflexivity.
Defined.

(** [rephrase_as_boolean] on a column: one whose type is not Boolean becomes
    a new [column IS NOT NULL] expression, in a store that keeps every
    object it had; one of Boolean type is returned as it is. *)
Theorem rephrase_as_boolean_on_column (depth : nat) (h : store) (expr : address)
    (c : Column) :
  h !! expr = Some (ObjColumn c) →
  (isinstance_Boolean (type_ c) = false →
   ∃ result h',
     rephrase_as_boolean (S depth) h expr = Some (result, h') ∧
     h !! result = None ∧ h ⊆ h' ∧
     tree_at 2 h' result = Some (isnot_None c)) ∧
  (isinstance_Boolean (type_ c) = true →
   rephrase_as_boolean (S depth) h expr = Some (expr, h)).
Proof.
  intros Ho. rewrite rephrase_as_boolean_unfold, Ho. cbn [mbind option_bind].
  split; intros ->; simpl; [|done].
  destruct (new_null_test h expr operators_isnot) as [result h'] eqn:Hnew.
  exists result, h'. split; [done|].
  destruct (null_test_well 0 _ _ _ _ _ _ Ho Hnew) as (Ht & _ & Hsub & _).
  apply new_null_test_spec in Hnew as (Hr & _). done.
Qed.

Lemma rephrase_as_boolean_on_column_witness :
  ∃ result h',
    rephrase_as_boolean 1 store_and_a 1%positive = Some (result, h') ∧
    store_and_a !! result = None ∧ store_and_a ⊆ h' ∧
    tree_at 2 h' result = Some (isnot_None column_a).
Proof.
  exact (proj1 (rephrase_as_boolean_on_column 0 store_and_a 1%positive column_a eq_refl)
               eq_refl).
Defined.

(** With a value for every column of a serialized expression, [evaluate]
    returns a value, unless the call of an operator raises. *)
Theorem evaluate_with_all_columns (expr : ClauseElement) (force_bool : bool)
    (symbols : list Symbol) (column_values : gmap Column pyval) :
  _serialize expr force_bool = Ok symbols →
  (∀ c, c ∈ columns symbols → is_Some (column_values !! c)) →
  (∃ v, evaluate symbols column_values = Ok v) ∨
  (∃ f args, evaluate symbols column_values = Raise (OperatorRaised f args)).
Proof.
  intros Hs Hall. pose proof (evaluate_of_serialized column_values _ _ _ Hs) as H.
  destruct (evaluate_loop column_values symbols []) as [stack|e] eqn:Hloop.
  - destruct H as (v & rest & _ & -> & _). left. eauto.
  - destruct H as [He ->]. right. destruct e; try done.
    + apply evaluate_loop_missing in Hloop as [Hin Hc].
      apply Hall in Hin as [? ?]. congruence.
    + eauto.
Qed.

Lemma evaluate_with_all_columns_witness :
  (∃ v, evaluate a_lt_b_symbols {[ column_a := VInt 3; column_b := VInt 5 ]} = Ok v) ∨
  (∃ f args, evaluate a_lt_b_symbols {[ column_a := VInt 3; column_b := VInt 5 ]}
             = Raise (OperatorRaised f args)).
Proof.
  apply (evaluate_with_all_columns a_lt_b false a_lt_b_symbols
           {[ column_a := VInt 3; column_b := VInt 5 ]} eq_refl).
  intros c [->| ->]%columns_of_a_lt_b; eexists; reflexivity.
Defined.

(** [rephrase_as_boolean] on what it has returned, for an expression that
    walks through no clause list twice, returns the same object and
    leaves the store as it is: rephrasing twice is rephrasing once. *)
Theorem rephrase_as_boolean_twice (depth : nat) (h : store) (a : address)
    (tree : ClauseElement) (lists : list address) (result : address) (h' : store) :
  tree_at depth h a = Some tree →
  clause_lists_at depth h a = Some lists →
  NoDup lists →
  rephrase_as_boolean depth h a = Some (result, h') →
  rephrase_as_boolean (S depth) h' result = Some (result, h').
Proof.
  intros Ht Hl Hnd Hr.
  destruct (rephrase_as_boolean_well depth h a tree lists Ht Hl Hnd)
    as (r & h1 & _ & Hr1 & _ & _ & _ & _ & _ & Hset & _).
  rewrite Hr in Hr1. injection Hr1 as <- <-. by apply settled_rephrase.
Qed.

Lemma rephrase_as_boolean_twice_witness :
  rephrase_as_boolean 3 store_and_a_rephrased 2%positive
  = Some (2%positive, store_and_a_rephrased).
Proof.
  apply (rephrase_as_boolean_twice 2 store_and_a 2%positive
           (BooleanClauseList operator_and_ [Column_ column_a]) [2%positive]
           2%positive store_and_a_rephrased eq_refl eq_refl).
  - apply NoDup_singleton.
  - reflexivity.
Defined.

(** The number of symbols of a serialization that succeeds. *)
Definition symbols_count (outcome : result (list Symbol)) : option nat :=
  match outcome with
  | Ok symbols => Some (length symbols)
  | Raise _ => None
  end.

(** Why the clause lists must not be shared: in [store_shared_clause_list]
    the clause list at 2 is rewritten as a clause and then read again,
    without [force_bool], as an operand, so the symbols of the expression
    built are not those of the tree as it was given. *)
Lemma shared_clause_list_changes_symbols :
  clause_lists_at 5 store_shared_clause_list 5%positive
    = Some [5%positive; 2%positive; 2%positive] ∧
  (tree ← tree_at 5 store_shared_clause_list 5%positive;
   symbols_count (_serialize tree true)) = Some 9%nat ∧
  (outcome ← Expression__init__ 6 store_shared_clause_list 5%positive true;
   symbols_count (e ← outcome.2; Ok (serialized e))) = Some 11%nat.
Proof. repeat split; reflexivity. Qed.
